(** * Deriv price-alert system: a shallow embedding and its verified properties

    The development follows the three JavaScript modules of the program:

    - [Alerts]  : [alert-manager.js], the rule set and its evaluation
                  ([checkAlerts], [removeAlert], [renumberAlerts]);
    - [Client]  : [deriv-client.js], the symbol resolver, the price store,
                  the subscription registry and the connection life cycle;
    - [App]     : [index.js], the wiring of a tick to the alert engine
                  ([handlePriceTick]).

    Modelling conventions.

    - A price is an exact rational ([Q]); JavaScript's [>=], [<], [<=], [>]
      on finite numbers are the order of [Q].
    - A JavaScript [Map] whose iteration order is observed (the callback
      registry, the active symbols, the alias object) is an association list
      in insertion order; a [Map] only used through get/set/has/delete is a
      [gmap].
    - The array [this.alerts] holds distinct objects mutated in place; the
      list of fired alerts returned by [checkAlerts] holds references to
      these objects, modelled as positions in the array.
    - Everything a method does to the outside world (a frame sent on the
      socket, a log line, a timer, a callback call, [process.exit]) is
      recorded in the list of effects it returns. *)

From Stdlib Require Import QArith Lqa Ascii.
From stdpp Require Import gmap strings list fin_maps.

Local Open Scope Z_scope.

(** ** Prices *)

Module Price.

(** [x >= y], [x < y], [x <= y], [x > y] of the source, as booleans. *)
Definition geb (x y : Q) : bool := Qle_bool y x.
Definition ltb (x y : Q) : bool := negb (Qle_bool y x).
Definition leb (x y : Q) : bool := Qle_bool x y.
Definition gtb (x y : Q) : bool := negb (Qle_bool x y).

End Price.

(** ** alert-manager.js *)

Module Alerts.

Import Price.

(** One element of [this.alerts]. *)
Record Alert := mkAlert {
  id : Z;
  symbol : string;
  name : string;
  condition : string;
  price : Q;
  enabled : bool;
  repeat : bool;
  triggered : bool
}.

Definition set_triggered (b : bool) (a : Alert) : Alert :=
  {| id := id a; symbol := symbol a; name := name a;
     condition := condition a; price := price a;
     enabled := enabled a; repeat := repeat a; triggered := b |}.

Definition set_id (i : Z) (a : Alert) : Alert :=
  {| id := i; symbol := symbol a; name := name a;
     condition := condition a; price := price a;
     enabled := enabled a; repeat := repeat a; triggered := triggered a |}.

(** The manager: the array [this.alerts], and the storage behind
    [saveAlerts] as the log of the snapshots written, newest first. *)
Record AlertManager := mkManager {
  alerts : list Alert;
  storage : list (list Alert)
}.

(** [saveAlerts()]: the current array is serialised and written. *)
Definition saveAlerts (m : AlertManager) : AlertManager :=
  {| alerts := alerts m; storage := alerts m :: storage m |}.

(** The [switch (alert.condition)] of [checkAlerts]: the value of the local
    [triggered] after it. *)
Definition conditionMet (alert : Alert) (currentPrice previousPrice : Q) : bool :=
  if String.eqb (condition alert) "above" then
    if geb currentPrice (price alert) && ltb previousPrice (price alert) then true
    else if geb currentPrice (price alert) && negb (triggered alert) then true
    else false
  else if String.eqb (condition alert) "below" then
    if leb currentPrice (price alert) && gtb previousPrice (price alert) then true
    else if leb currentPrice (price alert) && negb (triggered alert) then true
    else false
  else if String.eqb (condition alert) "crosses" then
    if (geb currentPrice (price alert) && ltb previousPrice (price alert))
       || (leb currentPrice (price alert) && gtb previousPrice (price alert))
    then true else false
  else false.

(** The two [continue] guards at the head of the loop body. *)
Definition skipped (alert : Alert) (sym : string) : bool :=
  (negb (enabled alert) || negb (String.eqb (symbol alert) sym))
  || (triggered alert && negb (repeat alert)).

(** The [for (const alert of this.alerts)] loop. [visited] are the elements
    already passed (as they are now), [todo] the ones to come; [fired] is
    [triggeredAlerts] (positions in the array), [st] the storage log. *)
Fixpoint checkLoop (sym : string) (currentPrice previousPrice : Q)
    (visited todo : list Alert) (fired : list nat) (st : list (list Alert))
    : list Alert * list nat * list (list Alert) :=
  match todo with
  | [] => (visited, fired, st)
  | alert :: rest =>
      if skipped alert sym then
        checkLoop sym currentPrice previousPrice (visited ++ [alert]) rest fired st
      else if conditionMet alert currentPrice previousPrice then
        let alert' := set_triggered true alert in
        let st' := if negb (repeat alert')
                   then (visited ++ alert' :: rest) :: st else st in
        checkLoop sym currentPrice previousPrice (visited ++ [alert']) rest
                  (fired ++ [length visited]) st'
      else
        checkLoop sym currentPrice previousPrice (visited ++ [alert]) rest fired st
  end.

(** [checkAlerts(symbol, currentPrice, previousPrice)]: the returned array
    and the manager afterwards. *)
Definition checkAlerts (sym : string) (currentPrice previousPrice : Q)
    (m : AlertManager) : list nat * AlertManager :=
  let '(al, fired, st) :=
    checkLoop sym currentPrice previousPrice [] (alerts m) [] (storage m) in
  (fired, {| alerts := al; storage := st |}).

(** [renumberAlerts()]. *)
Definition renumberAlerts (m : AlertManager) : AlertManager :=
  saveAlerts {| alerts := imap (fun index alert => set_id (Z.of_nat index + 1) alert)
                               (alerts m);
                storage := storage m |}.

(** [removeAlert(id)]: [findIndex], then [splice(index, 1)] and
    [renumberAlerts()]. *)
Definition removeAlert (i : Z) (m : AlertManager) : bool * AlertManager :=
  match list_find (fun a => id a = i) (alerts m) with
  | Some (index, _) =>
      (true, renumberAlerts {| alerts := delete index (alerts m);
                               storage := storage m |})
  | None => (false, m)
  end.

(** *** The loop, element by element *)

(** Whether the loop body fires on an element, and the element afterwards. *)
Definition fires (sym : string) (cur prev : Q) (a : Alert) : bool :=
  negb (skipped a sym) && conditionMet a cur prev.

Definition after (sym : string) (cur prev : Q) (a : Alert) : Alert :=
  if fires sym cur prev a then set_triggered true a else a.

(** Positions, counted from [n], of the elements of [l] that fire. *)
Fixpoint firing (sym : string) (cur prev : Q) (n : nat) (l : list Alert) : list nat :=
  match l with
  | [] => []
  | a :: r => (if fires sym cur prev a then [n] else []) ++ firing sym cur prev (S n) r
  end.

(** *** The other operations of the manager *)

Definition set_enabled (b : bool) (a : Alert) : Alert :=
  {| id := id a; symbol := symbol a; name := name a;
     condition := condition a; price := price a;
     enabled := b; repeat := repeat a; triggered := triggered a |}.

(** [Math.max(...this.alerts.map(a => a.id), 0) + 1]. *)
Definition newId (l : list Alert) : Z := foldr Z.max 0 (id <$> l) + 1.

(** [addAlert(symbol, name, condition, price, repeat)]: the new alert and the
    manager afterwards. *)
Definition addAlert (sym nm cond : string) (p : Q) (rep : bool) (m : AlertManager)
    : Alert * AlertManager :=
  let newAlert :=
    {| id := newId (alerts m); symbol := sym; name := nm; condition := cond;
       price := p; enabled := true; repeat := rep; triggered := false |} in
  (newAlert, saveAlerts {| alerts := alerts m ++ [newAlert]; storage := storage m |}).

(** [removeAllAlerts()]. *)
Definition removeAllAlerts (m : AlertManager) : nat * AlertManager :=
  (length (alerts m), saveAlerts {| alerts := []; storage := storage m |}).

(** [this.alerts.find(a => a.id === id)] followed by an update in place of
    the object found: the three methods below share this shape. *)
Definition updateById (f : Alert -> Alert) (i : Z) (m : AlertManager)
    : bool * AlertManager :=
  match list_find (fun a => id a = i) (alerts m) with
  | Some (index, alert) =>
      (true, saveAlerts {| alerts := <[index := f alert]> (alerts m);
                           storage := storage m |})
  | None => (false, m)
  end.

(** [k] is the position [find] stops at for the id [i], and [a] the alert
    there: the first one with this id. *)
Definition firstWithId (i : Z) (l : list Alert) (k : nat) (a : Alert) : Prop :=
  l !! k = Some a /\ id a = i
  /\ forall j b, (j < k)%nat -> l !! j = Some b -> id b <> i.

(** [enableAlert(id)]: also resets the trigger state. *)
Definition enableAlert (i : Z) (m : AlertManager) : bool * AlertManager :=
  updateById (fun alert => set_triggered false (set_enabled true alert)) i m.

(** [disableAlert(id)]. *)
Definition disableAlert (i : Z) (m : AlertManager) : bool * AlertManager :=
  updateById (set_enabled false) i m.

(** [resetAlert(id)]. *)
Definition resetAlert (i : Z) (m : AlertManager) : bool * AlertManager :=
  updateById (set_triggered false) i m.

(** [clearTriggered()]. *)
Definition clearTriggered (m : AlertManager) : nat * AlertManager :=
  let count :=
    length (List.filter (fun a => triggered a && negb (repeat a)) (alerts m)) in
  if (0 <? count)%nat then
    (count,
     renumberAlerts
       {| alerts := List.filter (fun a => negb (triggered a) || repeat a) (alerts m);
          storage := storage m |})
  else (count, m).

(** [getEnabledAlerts()]. *)
Definition getEnabledAlerts (m : AlertManager) : list Alert :=
  List.filter enabled (alerts m).

(** [Set.prototype.add] on a set kept in insertion order. *)
Definition set_add (x : string) (s : list string) : list string :=
  if bool_decide (x ∈ s) then s else s ++ [x].

(** [getActiveSymbols()]: the set filled by [forEach], as an array. *)
Definition getActiveSymbols (m : AlertManager) : list string :=
  foldl (fun symbols a => set_add (symbol a) symbols) [] (getEnabledAlerts m).

(** Successive calls [checkAlerts(symbol, currentPrice, previousPrice)]: what
    each call returned, and the manager at the end. *)
Fixpoint checkEach (calls : list (string * Q * Q)) (m : AlertManager)
    : list (list nat) * AlertManager :=
  match calls with
  | [] => ([], m)
  | (sym, cur, prev) :: rest =>
      let '(fired, m1) := checkAlerts sym cur prev m in
      let '(fs, m2) := checkEach rest m1 in
      (fired :: fs, m2)
  end.

(** The ids are the positions counted from 1, as [renumberAlerts] leaves
    them. *)
Definition numbered (l : list Alert) : Prop :=
  forall j a, l !! j = Some a -> id a = Z.of_nat j + 1.

End Alerts.

(** ** deriv-client.js *)

Module Client.

(** *** JavaScript helpers *)

(** [String.prototype.toUpperCase] on ASCII text. *)
Definition upper_ascii (ch : ascii) : ascii :=
  let n := nat_of_ascii ch in
  if ((97 <=? n) && (n <=? 122))%nat then ascii_of_nat (n - 32) else ch.

Fixpoint toUpperCase (s : string) : string :=
  match s with
  | EmptyString => EmptyString
  | String ch r => String (upper_ascii ch) (toUpperCase r)
  end.

(** Truthiness of a string value. *)
Definition truthy (s : string) : bool := negb (String.eqb s "").

(** [Map.prototype.get] / own-property lookup, on a map kept in insertion
    order. *)
Fixpoint map_get {V : Type} (k : string) (l : list (string * V)) : option V :=
  match l with
  | [] => None
  | (k', v) :: r => if String.eqb k' k then Some v else map_get k r
  end.

(** [Map.prototype.set]: an existing key keeps its place, a new key goes
    last. *)
Fixpoint map_set {V : Type} (k : string) (v : V) (l : list (string * V))
    : list (string * V) :=
  match l with
  | [] => [(k, v)]
  | (k', v') :: r =>
      if String.eqb k' k then (k', v) :: r else (k', v') :: map_set k v r
  end.

(** *** Data *)

(** The object literal [SYMBOL_ALIASES], in source order (the order of
    [Object.entries]). *)
Definition SYMBOL_ALIASES : list (string * string) :=
  [ ("BTC", "cryBTCUSD"); ("BTCUSD", "cryBTCUSD"); ("BITCOIN", "cryBTCUSD");
    ("ETH", "cryETHUSD"); ("ETHUSD", "cryETHUSD"); ("ETHEREUM", "cryETHUSD");
    ("XAU", "frxXAUUSD"); ("XAUUSD", "frxXAUUSD"); ("GOLD", "frxXAUUSD");
    ("XAG", "frxXAGUSD"); ("XAGUSD", "frxXAGUSD"); ("SILVER", "frxXAGUSD");
    ("XPT", "frxXPTUSD"); ("PLATINUM", "frxXPTUSD");
    ("XPD", "frxXPDUSD"); ("PALLADIUM", "frxXPDUSD");
    ("V10", "R_10"); ("V25", "R_25"); ("V50", "R_50"); ("V75", "R_75");
    ("V100", "R_100");
    ("VOL10", "R_10"); ("VOL25", "R_25"); ("VOL50", "R_50"); ("VOL75", "R_75");
    ("VOL100", "R_100") ]%string.

(** A value of [this.prices]. *)
Record PriceSample := mkSample { previous : Q; current : Q }.

(** A registered callback is a function object; only its identity is
    observed. *)
Definition Callback := nat.

(** Handle returned by [setInterval]. *)
Definition TimerId := nat.

(** [readyState] of the socket [this.ws]. *)
Inductive ReadyState := CONNECTING | OPEN | CLOSING | CLOSED.

(** The fields of a [DerivClient]. [activeSymbols] keeps the keys of the
    map, in insertion order. *)
Record DerivClient := mkClient {
  ws : option ReadyState;
  subscriptions : gmap string string;
  callbacks : list (string * Callback);
  prices : gmap string PriceSample;
  activeSymbols : list string;
  symbolAliases : list (string * string);
  connected : bool;
  reconnectAttempts : nat;
  maxReconnectAttempts : nat;
  reqId : nat;
  pingInterval : option TimerId
}.

(** [new DerivClient(appId)]. *)
Definition new : DerivClient :=
  {| ws := None; subscriptions := ∅; callbacks := []; prices := ∅;
     activeSymbols := []; symbolAliases := SYMBOL_ALIASES;
     connected := false; reconnectAttempts := 0; maxReconnectAttempts := 10;
     reqId := 0; pingInterval := None |}.

Definition set_ws (x : option ReadyState) (c : DerivClient) : DerivClient :=
  {| ws := x; subscriptions := subscriptions c; callbacks := callbacks c;
     prices := prices c; activeSymbols := activeSymbols c;
     symbolAliases := symbolAliases c; connected := connected c;
     reconnectAttempts := reconnectAttempts c;
     maxReconnectAttempts := maxReconnectAttempts c; reqId := reqId c;
     pingInterval := pingInterval c |}.

Definition set_subscriptions (x : gmap string string) (c : DerivClient) : DerivClient :=
  {| ws := ws c; subscriptions := x; callbacks := callbacks c;
     prices := prices c; activeSymbols := activeSymbols c;
     symbolAliases := symbolAliases c; connected := connected c;
     reconnectAttempts := reconnectAttempts c;
     maxReconnectAttempts := maxReconnectAttempts c; reqId := reqId c;
     pingInterval := pingInterval c |}.

Definition set_callbacks (x : list (string * Callback)) (c : DerivClient) : DerivClient :=
  {| ws := ws c; subscriptions := subscriptions c; callbacks := x;
     prices := prices c; activeSymbols := activeSymbols c;
     symbolAliases := symbolAliases c; connected := connected c;
     reconnectAttempts := reconnectAttempts c;
     maxReconnectAttempts := maxReconnectAttempts c; reqId := reqId c;
     pingInterval := pingInterval c |}.

Definition set_prices (x : gmap string PriceSample) (c : DerivClient) : DerivClient :=
  {| ws := ws c; subscriptions := subscriptions c; callbacks := callbacks c;
     prices := x; activeSymbols := activeSymbols c;
     symbolAliases := symbolAliases c; connected := connected c;
     reconnectAttempts := reconnectAttempts c;
     maxReconnectAttempts := maxReconnectAttempts c; reqId := reqId c;
     pingInterval := pingInterval c |}.

Definition set_connected (x : bool) (c : DerivClient) : DerivClient :=
  {| ws := ws c; subscriptions := subscriptions c; callbacks := callbacks c;
     prices := prices c; activeSymbols := activeSymbols c;
     symbolAliases := symbolAliases c; connected := x;
     reconnectAttempts := reconnectAttempts c;
     maxReconnectAttempts := maxReconnectAttempts c; reqId := reqId c;
     pingInterval := pingInterval c |}.

Definition set_reconnectAttempts (x : nat) (c : DerivClient) : DerivClient :=
  {| ws := ws c; subscriptions := subscriptions c; callbacks := callbacks c;
     prices := prices c; activeSymbols := activeSymbols c;
     symbolAliases := symbolAliases c; connected := connected c;
     reconnectAttempts := x;
     maxReconnectAttempts := maxReconnectAttempts c; reqId := reqId c;
     pingInterval := pingInterval c |}.

Definition set_reqId (x : nat) (c : DerivClient) : DerivClient :=
  {| ws := ws c; subscriptions := subscriptions c; callbacks := callbacks c;
     prices := prices c; activeSymbols := activeSymbols c;
     symbolAliases := symbolAliases c; connected := connected c;
     reconnectAttempts := reconnectAttempts c;
     maxReconnectAttempts := maxReconnectAttempts c; reqId := x;
     pingInterval := pingInterval c |}.

Definition set_pingInterval (x : option TimerId) (c : DerivClient) : DerivClient :=
  {| ws := ws c; subscriptions := subscriptions c; callbacks := callbacks c;
     prices := prices c; activeSymbols := activeSymbols c;
     symbolAliases := symbolAliases c; connected := connected c;
     reconnectAttempts := reconnectAttempts c;
     maxReconnectAttempts := maxReconnectAttempts c; reqId := reqId c;
     pingInterval := x |}.

(** Frames written with [this.ws.send]. *)
Inductive Frame :=
| TicksSubscribe (symbol : string) (req_id : nat)
| Forget (subscriptionId : string)
| Ping.

(** Lines written with [console.log] / [console.error]. *)
Inductive LogLine :=
| LogConnecting
| LogConnected
| LogDisconnected
| LogApiError (message : string)
| LogAlreadySubscribed (symbol : string)
| LogSubscribed (symbol : string)
| LogMaxReconnect
| LogReconnecting (delay : Z) (attempt : nat)
| LogReconnectionFailed (message : string).

(** What a method does to the world around the client. *)
Inductive Effect :=
| Send (f : Frame)
| Log (l : LogLine)
| Call (cb : Callback) (symbol : string) (price previousPrice : Q)
| NewSocket
| CloseSocket
| SetInterval (h : TimerId)
| ClearInterval (h : TimerId)
| SetTimeout (delay : Z)
| Exit (code : Z).

(** An incoming frame, after [JSON.parse]. A missing property is [None]. *)
Record Tick := mkTick { symbol : option string; quote : option Q }.

Record Message := mkMessage {
  msg_type : string;
  tick : option Tick;
  req_id : option nat;
  error : option string;
  subscription : option string
}.

(** A tick frame as the feed sends it. *)
Definition tickMessage (sym : string) (price : Q) : Message :=
  {| msg_type := "tick"; tick := Some {| symbol := Some sym; quote := Some price |};
     req_id := None; error := None; subscription := None |}.

(** *** Symbol resolver *)

(** [resolveSymbol(input)]. The lookup [this.symbolAliases[upper]] sees the
    own properties only: no inherited property of an object has a name
    without a lowercase letter. *)
Definition resolveSymbol (input : string) (c : DerivClient) : string :=
  let upper := toUpperCase input in
  let scan :=
    match List.find (fun symbol => String.eqb (toUpperCase symbol) upper)
                    (activeSymbols c) with
    | Some symbol => symbol
    | None => input
    end in
  match map_get upper (symbolAliases c) with
  | Some target => if truthy target then target else scan
  | None => scan
  end.

(** [getAlias(derivSymbol)]; [null] is [None]. *)
Definition getAlias (derivSymbol : string) (c : DerivClient) : option string :=
  match List.find (fun entry => String.eqb (snd entry) derivSymbol
                                && (String.length (fst entry) <=? 4)%nat)
                  (symbolAliases c) with
  | Some entry => Some (fst entry)
  | None => None
  end.

(** *** Price store and tick routing *)

(** [_handleMessage(data)]. *)
Definition _handleMessage (data : Message) (c : DerivClient)
    : DerivClient * list Effect :=
  match (if String.eqb (msg_type data) "tick" then tick data else None) with
  | Some t =>
      match symbol t, quote t with
      | Some sym, Some price =>
          if negb (truthy sym) then (c, [])
          else
            let prevData :=
              match prices c !! sym with
              | Some d => d
              | None => {| current := price; previous := price |}
              end in
            let c' :=
              set_prices (<[sym := {| previous := current prevData;
                                      current := price |}]> (prices c)) c in
            (c', match map_get sym (callbacks c') with
                 | Some callback => [Call callback sym price (current prevData)]
                 | None => []
                 end)
      | _, _ => (c, [])
      end
  | None =>
      if String.eqb (msg_type data) "ping" then (c, [])
      else match error data with
           | Some message => (c, [Log (LogApiError message)])
           | None => (c, [])
           end
  end.

(** *** Subscription registry *)

(** How an awaited promise stands. *)
Inductive Outcome := Resolved | Rejected (reason : string) | Pending.

(** [subscribe(symbol, callback)] up to the point where it returns or
    waits: [inr r] means the request [r] is on the wire and the promise waits
    for the answer carrying that [req_id]. *)
Definition subscribe (sym : string) (callback : Callback) (c : DerivClient)
    : DerivClient * list Effect * (Outcome + nat) :=
  if bool_decide (is_Some (subscriptions c !! sym)) then
    (set_callbacks (map_set sym callback (callbacks c)) c,
     [Log (LogAlreadySubscribed sym)], inl Resolved)
  else
    let r := S (reqId c) in
    (set_reqId r c, [Send (TicksSubscribe sym r)], inr r).

(** The [messageHandler] closure of [subscribe], run on one incoming frame.
    [Pending] with a matching [req_id] leaves the promise unsettled for ever
    (the handler has detached itself). *)
Definition messageHandler (sym : string) (callback : Callback) (r : nat)
    (msg : Message) (c : DerivClient) : DerivClient * list Effect * Outcome :=
  if bool_decide (req_id msg = Some r) then
    match error msg with
    | Some message => (c, [], Rejected message)
    | None =>
        match subscription msg with
        | Some sid =>
            (set_callbacks (map_set sym callback (callbacks c))
               (set_subscriptions (<[sym := sid]> (subscriptions c)) c),
             [Log (LogSubscribed sym)], Resolved)
        | None => (c, [], Pending)
        end
    end
  else (c, [], Pending).

(** *** Connection life cycle *)

Definition _startPing (h : TimerId) (c : DerivClient) : DerivClient * list Effect :=
  (set_pingInterval (Some h) c, [SetInterval h]).

Definition _stopPing (c : DerivClient) : DerivClient * list Effect :=
  match pingInterval c with
  | Some h => (c, [ClearInterval h])
  | None => (c, [])
  end.

(** The delay computed in [_attemptReconnect] from the counter it reads. *)
Definition backoff (attempts : nat) : Z :=
  Z.min (1000 * 2 ^ Z.of_nat attempts) 30000.

(** [_attemptReconnect()] up to [setTimeout]; the timer's body is
    [reconnect] below. After [Exit] nothing runs. *)
Definition _attemptReconnect (c : DerivClient) : DerivClient * list Effect :=
  if (maxReconnectAttempts c <=? reconnectAttempts c)%nat then
    (c, [Log LogMaxReconnect; Exit 1])
  else
    let c1 := set_reconnectAttempts (S (reconnectAttempts c)) c in
    let delay := backoff (reconnectAttempts c1) in
    (c1, [Log (LogReconnecting delay (reconnectAttempts c1)); SetTimeout delay]).

(** [connect()]: a new socket, with the four handlers below attached. *)
Definition connect (c : DerivClient) : DerivClient * list Effect :=
  (set_ws (Some CONNECTING) c, [Log LogConnecting; NewSocket]).

(** The ['open'] handler; [h] is the handle [setInterval] returns. *)
Definition onOpen (h : TimerId) (c : DerivClient) : DerivClient * list Effect :=
  let '(c1, e1) :=
    _startPing h (set_reconnectAttempts 0 (set_connected true c)) in
  (c1, Log LogConnected :: e1).

(** The ['close'] handler. *)
Definition onClose (c : DerivClient) : DerivClient * list Effect :=
  let '(c1, e1) := _stopPing (set_connected false c) in
  let '(c2, e2) := _attemptReconnect c1 in
  (c2, Log LogDisconnected :: e1 ++ e2).

(** [WebSocket.prototype.close] on the socket's state: a socket that is not
    closed yet starts closing. *)
Definition ws_close (s : ReadyState) : ReadyState :=
  match s with
  | CLOSED => CLOSED
  | _ => CLOSING
  end.

(** [disconnect()]. *)
Definition disconnect (c : DerivClient) : DerivClient * list Effect :=
  let '(c1, e1) := _stopPing c in
  match ws c1 with
  | Some s => (set_ws (Some (ws_close s)) c1, e1 ++ [CloseSocket])
  | None => (c1, e1)
  end.

(** Events the socket emits, and the handler [connect] attached for each.
    A socket emits ['open'] once when its handshake completes, messages while
    it is open, and ['close'] once when the connection is gone, whether it was
    lost or closed by [close()]; [None] when the socket cannot emit the event
    in its state. *)
Inductive Event := EvOpen (h : TimerId) | EvMessage (m : Message) | EvClose.

Definition dispatch (ev : Event) (c : DerivClient)
    : option (DerivClient * list Effect) :=
  match ev, ws c with
  | EvOpen h, Some CONNECTING => Some (onOpen h (set_ws (Some OPEN) c))
  | EvMessage m, Some OPEN => Some (_handleMessage m c)
  | EvClose, Some CONNECTING
  | EvClose, Some OPEN
  | EvClose, Some CLOSING => Some (onClose (set_ws (Some CLOSED) c))
  | _, _ => None
  end.

(** *** Resubscription replay *)

(** How the replay loop of the reconnect timer ends: it ran through, the
    [catch] took over, or an [await] never returned. *)
Inductive ReplayOutcome := Completed | Aborted (reason : string) | Hung.

(** The [for (const [symbol, callback] of this.callbacks)] loop inside the
    [try] of the reconnect timer, over [entries], the entries still to visit.
    [feed r] is the frame the feed answers to request [r] with, if it ever
    answers. *)
Fixpoint replay (feed : nat -> option Message) (entries : list (string * Callback))
    (c : DerivClient) : DerivClient * list Effect * ReplayOutcome :=
  match entries with
  | [] => (c, [], Completed)
  | (sym, callback) :: rest =>
      let c1 := set_subscriptions (delete sym (subscriptions c)) c in
      let '(c2, e2, o) := subscribe sym callback c1 in
      match o with
      | inl Resolved =>
          let '(c3, e3, out) := replay feed rest c2 in (c3, e2 ++ e3, out)
      | inl (Rejected reason) =>
          (c2, e2 ++ [Log (LogReconnectionFailed reason)], Aborted reason)
      | inl Pending => (c2, e2, Hung)
      | inr r =>
          match feed r with
          | None => (c2, e2, Hung)
          | Some msg =>
              let '(c3, e3, res) := messageHandler sym callback r msg c2 in
              match res with
              | Resolved =>
                  let '(c4, e4, out) := replay feed rest c3 in
                  (c4, e2 ++ e3 ++ e4, out)
              | Rejected reason =>
                  (c3, e2 ++ e3 ++ [Log (LogReconnectionFailed reason)],
                   Aborted reason)
              | Pending => (c3, e2 ++ e3, Hung)
              end
          end
      end
  end.

(** The body of the reconnect timer once [await this.connect()] has
    returned. *)
Definition resubscribeAll (feed : nat -> option Message) (c : DerivClient)
    : DerivClient * list Effect * ReplayOutcome :=
  replay feed (callbacks c) c.

(** The symbols of the subscribe requests among the effects, in order. *)
Definition requested (es : list Effect) : list string :=
  flat_map (fun e => match e with
                     | Send (TicksSubscribe sym _) => [sym]
                     | _ => []
                     end) es.

(** The delays of the timers set among the effects. *)
Definition timeouts (es : list Effect) : list Z :=
  flat_map (fun e => match e with SetTimeout d => [d] | _ => [] end) es.

(** What the promise of [subscribe] becomes once the feed has answered (or
    not) the request [r]: the verdict of [messageHandler] on the answer. *)
Definition verdict (r : nat) (reply : option Message) : Outcome :=
  match reply with
  | None => Pending
  | Some msg =>
      if bool_decide (req_id msg = Some r) then
        match error msg with
        | Some message => Rejected message
        | None =>
            match subscription msg with
            | Some _ => Resolved
            | None => Pending
            end
        end
      else Pending
  end.

(** [subscribe(sym, cb)] called once for each callback of [cbs], in turn. *)
Fixpoint subscribeEach (sym : string) (cbs : list Callback) (c : DerivClient)
    : DerivClient * list Effect :=
  match cbs with
  | [] => (c, [])
  | cb :: rest =>
      let '(c1, e1, _) := subscribe sym cb c in
      let '(c2, e2) := subscribeEach sym rest c1 in
      (c2, e1 ++ e2)
  end.

(** The frames sent among the effects. *)
Definition sentFrames (es : list Effect) : list Frame :=
  flat_map (fun e => match e with Send f => [f] | _ => [] end) es.

(** *** The other operations of the client *)


(** Console lines of the methods below. *)
Inductive ConsoleLine :=
| LogUnsubscribed (symbol : string)
| LogLoadedSymbols (size : nat).


(** [getPrice(symbol)]: [x || null] turns a zero price into [null]. *)
Definition getPrice (sym : string) (c : DerivClient) : option Q :=
  match prices c !! sym with
  | Some d => if Qeq_bool (current d) 0 then None else Some (current d)
  | None => None
  end.

(** [getPriceData(symbol)]. *)
Definition getPriceData (sym : string) (c : DerivClient) : option PriceSample :=
  prices c !! sym.

(** [isValidSymbol(symbol)]. *)
Definition isValidSymbol (sym : string) (c : DerivClient) : bool :=
  bool_decide (sym ∈ activeSymbols c).

Definition set_activeSymbols (x : list string) (c : DerivClient) : DerivClient :=
  {| ws := ws c; subscriptions := subscriptions c; callbacks := callbacks c;
     prices := prices c; activeSymbols := x;
     symbolAliases := symbolAliases c; connected := connected c;
     reconnectAttempts := reconnectAttempts c;
     maxReconnectAttempts := maxReconnectAttempts c; reqId := reqId c;
     pingInterval := pingInterval c |}.

(** An element of [msg.active_symbols], and the answer to the catalog
    request. *)
Record ActiveSymbol := mkActiveSymbol { as_symbol : string; as_market : string }.

Record SymbolsReply := mkSymbolsReply {
  sr_req_id : option nat;
  sr_error : option string;
  sr_active_symbols : option (list ActiveSymbol)
}.

Definition allowedMarkets : list string :=
  ["synthetic_index"; "cryptocurrency"; "commodities"]%string.

(** [Map.prototype.set] on the keys of a map: a key already present keeps
    its place. *)
Definition key_set (k : string) (keys : list string) : list string :=
  if bool_decide (k ∈ keys) then keys else keys ++ [k].

(** The [messageHandler] closure of [fetchActiveSymbols], run on one
    incoming frame for the request [r]. It detaches itself as soon as the
    [req_id] matches. *)
Definition symbolsHandler (r : nat) (msg : SymbolsReply) (c : DerivClient)
    : DerivClient * list ConsoleLine * Outcome :=
  if bool_decide (sr_req_id msg = Some r) then
    match sr_error msg with
    | Some message => (c, [], Rejected message)
    | None =>
        match sr_active_symbols msg with
        | Some l =>
            let filtered :=
              List.filter (fun s => bool_decide (as_market s ∈ allowedMarkets)) l in
            let c' :=
              set_activeSymbols
                (foldl (fun keys s => key_set (as_symbol s) keys) [] filtered) c in
            (c', [LogLoadedSymbols (length (activeSymbols c'))], Resolved)
        | None => (c, [], Pending)
        end
    end
  else (c, [], Pending).

(** The callback given to [setInterval] in [_startPing]. *)
Definition pingTick (c : DerivClient) : list Effect :=
  if connected c then [Send Ping] else [].

(** Whether the process has exited among the effects. *)
Definition exited (es : list Effect) : bool :=
  existsb (fun e => match e with Exit _ => true | _ => false end) es.

(** The close handler run [n] times in a row, with no ['open'] in between,
    as long as the process lives. *)
Fixpoint closeRepeatedly (n : nat) (c : DerivClient) : DerivClient * list Effect :=
  match n with
  | O => (c, [])
  | S k =>
      let '(c1, e1) := onClose c in
      if exited e1 then (c1, e1)
      else let '(c2, e2) := closeRepeatedly k c1 in (c2, e1 ++ e2)
  end.

(** Incoming frames handled one after the other. *)
Fixpoint handleMessages (msgs : list Message) (c : DerivClient)
    : DerivClient * list Effect :=
  match msgs with
  | [] => (c, [])
  | data :: rest =>
      let '(c1, e1) := _handleMessage data c in
      let '(c2, e2) := handleMessages rest c1 in
      (c2, e1 ++ e2)
  end.

End Client.

(** ** index.js *)

Module App.

Import Client.

(** [handlePriceTick]: the fired alerts go to the notifier, the manager is
    updated. Every callback the program registers has this body. *)
Definition handlePriceTick (sym : string) (currentPrice previousPrice : Q)
    (m : Alerts.AlertManager) : list nat * Alerts.AlertManager :=
  Alerts.checkAlerts sym currentPrice previousPrice m.

(** One tick through the client and, if a callback is registered for its
    symbol, through the alert manager: the alerts fired by it. *)
Definition onTick (sym : string) (price : Q)
    (st : DerivClient * Alerts.AlertManager)
    : list nat * (DerivClient * Alerts.AlertManager) :=
  let '(c', es) := _handleMessage (tickMessage sym price) (fst st) in
  match es with
  | [Call _ s cur prev] =>
      let '(fired, m') := handlePriceTick s cur prev (snd st) in
      (fired, (c', m'))
  | _ => ([], (c', snd st))
  end.

(** The previous price [_handleMessage] hands to the callback on a tick of
    price [p]: the stored current price, or [p] itself on a first tick. *)
Definition previousFor (sym : string) (p : Q) (c : DerivClient) : Q :=
  match prices c !! sym with
  | Some d => current d
  | None => p
  end.

(** A sequence of ticks for one symbol, one after the other: what each tick
    fired, and the state at the end. *)
Fixpoint feedTicks (sym : string) (ticks : list Q)
    (st : DerivClient * Alerts.AlertManager)
    : list (list nat) * (DerivClient * Alerts.AlertManager) :=
  match ticks with
  | [] => ([], st)
  | p :: rest =>
      let '(fired, st1) := onTick sym p st in
      let '(fs, st2) := feedTicks sym rest st1 in
      (fired :: fs, st2)
  end.

(** How many times the alert at position [i] occurs in a returned array. *)
Definition timesFired (i : nat) (fired : list nat) : nat :=
  count_occ Nat.eq_dec fired i.

End App.

(** ** telegram-bot.js *)

Module Telegram.

(** The line feed character. *)
Definition LF : ascii := ascii_of_nat 10.

(** [message.split('\n')]. *)
Fixpoint splitLines (message : string) : list string :=
  match message with
  | EmptyString => [EmptyString]
  | String ch r =>
      if Ascii.eqb ch LF then EmptyString :: splitLines r
      else match splitLines r with
           | line :: lines => String ch line :: lines
           | [] => [String ch EmptyString]
           end
  end.

(** [line + '\n']. *)
Definition withLF (line : string) : string := (line ++ String LF EmptyString)%string.

(** The [for (const line of lines)] loop of [splitMessage]. *)
Fixpoint splitLoop (maxLength : nat) (lines : list string)
    (parts : list string) (current : string) : list string * string :=
  match lines with
  | [] => (parts, current)
  | line :: rest =>
      if (maxLength <? String.length (current ++ withLF line))%nat then
        splitLoop maxLength rest (parts ++ [current]) (withLF line)
      else
        splitLoop maxLength rest parts (current ++ withLF line)%string
  end.

(** [splitMessage(message, maxLength)]. *)
Definition splitMessage (message : string) (maxLength : nat) : list string :=
  let '(parts, current) := splitLoop maxLength (splitLines message) [] EmptyString in
  if Client.truthy current then parts ++ [current] else parts.

(** The parts put end to end. *)
Definition joined (parts : list string) : string :=
  foldr String.append EmptyString parts.

(** A part fits: it is within the limit, or it is one line of [lines] with
    its line feed. *)
Definition fits (maxLength : nat) (lines : list string) (p : string) : Prop :=
  (String.length p <= maxLength)%nat \/ exists line, line ∈ lines /\ p = withLF line.

End Telegram.

(** ** Concrete states used in examples *)

Module Sample.

Import Client.

(** A client that is connected, with the heartbeat [7] running and two
    symbols subscribed. *)
Definition client : DerivClient :=
  {| ws := Some OPEN;
     subscriptions := <["R_25" := "sub-2"]> (<["R_10" := "sub-1"]> ∅);
     callbacks := [("R_10", 1%nat); ("R_25", 2%nat)];
     prices := ∅;
     activeSymbols := ["R_10"; "R_25"; "cryBTCUSD"];
     symbolAliases := SYMBOL_ALIASES;
     connected := true; reconnectAttempts := 0; maxReconnectAttempts := 10;
     reqId := 2; pingInterval := Some 7%nat |}%string.

(** One rule on [R_10] with target 100, not triggered, not repeating. *)
Definition rule (cond : string) : Alerts.Alert :=
  {| Alerts.id := 1; Alerts.symbol := "R_10"; Alerts.name := "Volatility 10 Index";
     Alerts.condition := cond; Alerts.price := 100; Alerts.enabled := true;
     Alerts.repeat := false; Alerts.triggered := false |}.

Definition manager (cond : string) : Alerts.AlertManager :=
  {| Alerts.alerts := [rule cond]; Alerts.storage := [] |}.

(** An answer of the feed to the request [r]. *)
Definition accepted (r : nat) (sid : string) : Message :=
  {| msg_type := "tick"; tick := None; req_id := Some r; error := None;
     subscription := Some sid |}.

Definition refused (r : nat) (message : string) : Message :=
  {| msg_type := "tick"; tick := None; req_id := Some r; error := Some message;
     subscription := None |}.

(** A feed that refuses the first request after [client]'s and accepts the
    others. *)
Definition feedRefusingFirst (r : nat) : option Message :=
  if (r =? 3)%nat then Some (refused r "MarketIsClosed")
  else Some (accepted r "sub-new").

(** A feed that accepts every request. *)
Definition feedAccepting (r : nat) : option Message := Some (accepted r "sub-new").

(** A manager with three rules numbered from 1: the rule above; one on
    [R_25], triggered and not repeating; one on [R_10], repeating and
    disabled. *)
Definition spent : Alerts.Alert :=
  {| Alerts.id := 2; Alerts.symbol := "R_25"; Alerts.name := "Volatility 25 Index";
     Alerts.condition := "below"; Alerts.price := 50; Alerts.enabled := true;
     Alerts.repeat := false; Alerts.triggered := true |}.

Definition dormant : Alerts.Alert :=
  {| Alerts.id := 3; Alerts.symbol := "R_10"; Alerts.name := "Volatility 10 Index";
     Alerts.condition := "above"; Alerts.price := 100; Alerts.enabled := false;
     Alerts.repeat := true; Alerts.triggered := false |}.

Definition book : Alerts.AlertManager :=
  {| Alerts.alerts := [rule "above"; spent; dormant]; Alerts.storage := [] |}.

(** A repeating rule on [R_10] with target 100, alone in its manager. *)
Definition repeating : Alerts.Alert :=
  {| Alerts.id := 1; Alerts.symbol := "R_10"; Alerts.name := "Volatility 10 Index";
     Alerts.condition := "above"; Alerts.price := 100; Alerts.enabled := true;
     Alerts.repeat := true; Alerts.triggered := false |}.

Definition repeatingManager : Alerts.AlertManager :=
  {| Alerts.alerts := [repeating]; Alerts.storage := [] |}.

(** An answer to the catalog request [r]: two symbols in allowed markets, one
    of them listed twice, and one in another market. *)
Definition catalogReply (r : nat) : SymbolsReply :=
  {| sr_req_id := Some r; sr_error := None;
     sr_active_symbols :=
       Some [ {| as_symbol := "R_10"; as_market := "synthetic_index" |};
              {| as_symbol := "frxEURUSD"; as_market := "forex" |};
              {| as_symbol := "cryBTCUSD"; as_market := "cryptocurrency" |};
              {| as_symbol := "R_10"; as_market := "synthetic_index" |} ] |}%string.

(** Two lines of two characters. *)
Definition twoLines : string :=
  String "a" (String "b" (String Telegram.LF (String "c" (String "d" EmptyString)))).

End Sample.

(** * Properties *)

(** ** Price comparisons *)

Section PriceFacts.

Import Price.

Lemma geb_true x y : geb x y = true <-> (y <= x)%Q.
Proof. apply Qle_bool_iff. Qed.

Lemma leb_true x y : leb x y = true <-> (x <= y)%Q.
Proof. apply Qle_bool_iff. Qed.

Lemma ltb_true x y : ltb x y = true <-> (x < y)%Q.
Proof.
  unfold ltb. rewrite negb_true_iff, <- not_true_iff_false, Qle_bool_iff.
  split; [apply Qnot_le_lt | apply Qlt_not_le].
Qed.

Lemma gtb_true x y : gtb x y = true <-> (y < x)%Q.
Proof.
  unfold gtb. rewrite negb_true_iff, <- not_true_iff_false, Qle_bool_iff.
  split; [apply Qnot_le_lt | apply Qlt_not_le].
Qed.

Lemma geb_false x y : geb x y = false <-> (x < y)%Q.
Proof.
  rewrite <- not_true_iff_false, geb_true.
  split; [apply Qnot_le_lt | apply Qlt_not_le].
Qed.

Lemma ltb_false x y : ltb x y = false <-> (y <= x)%Q.
Proof.
  rewrite <- not_true_iff_false, ltb_true.
  split; [apply Qnot_lt_le | apply Qle_not_lt].
Qed.

Lemma leb_false x y : leb x y = false <-> (y < x)%Q.
Proof.
  rewrite <- not_true_iff_false, leb_true.
  split; [apply Qnot_le_lt | apply Qlt_not_le].
Qed.

End PriceFacts.

(** ** The alert loop *)

Section AlertLoop.

Import Alerts.

Variables (sym : string) (cur prev : Q).

Lemma checkLoop_spec todo : forall visited fired st,
  exists st',
    checkLoop sym cur prev visited todo fired st
    = (visited ++ (after sym cur prev <$> todo),
       fired ++ firing sym cur prev (length visited) todo, st').
Proof.
  induction todo as [|a rest IH]; intros visited fired st; simpl.
  - exists st. by rewrite !app_nil_r.
  - unfold after at 1, fires at 1 2.
    destruct (skipped a sym); simpl.
    + destruct (IH (visited ++ [a]) fired st) as [st' ->]. exists st'.
      rewrite length_app, Nat.add_1_r, <- app_assoc. done.
    + destruct (conditionMet a cur prev); simpl.
      * match goal with |- context [checkLoop _ _ _ _ _ _ ?s] =>
          destruct (IH (visited ++ [set_triggered true a]) (fired ++ [length visited]) s)
            as [st' ->] end.
        exists st'. rewrite length_app, Nat.add_1_r, <- !app_assoc. done.
      * destruct (IH (visited ++ [a]) fired st) as [st' ->]. exists st'.
        rewrite length_app, Nat.add_1_r, <- app_assoc. done.
Qed.

Lemma checkAlerts_fired m :
  (checkAlerts sym cur prev m).1 = firing sym cur prev 0 (alerts m).
Proof.
  unfold checkAlerts.
  destruct (checkLoop_spec (alerts m) [] [] (storage m)) as [st' ->]. done.
Qed.

Lemma checkAlerts_alerts m :
  alerts (checkAlerts sym cur prev m).2 = after sym cur prev <$> alerts m.
Proof.
  unfold checkAlerts.
  destruct (checkLoop_spec (alerts m) [] [] (storage m)) as [st' ->]. done.
Qed.

Lemma firing_ge l : forall n i, i ∈ firing sym cur prev n l -> (n <= i)%nat.
Proof.
  induction l as [|a r IH]; intros n i; simpl.
  - by intros ?%elem_of_nil.
  - rewrite elem_of_app. intros [H|H].
    + destruct (fires sym cur prev a);
        [apply list_elem_of_singleton in H; lia | by apply elem_of_nil in H].
    + apply IH in H. lia.
Qed.

Lemma firing_elem l : forall n i,
  i ∈ firing sym cur prev n l
  <-> exists a, (n <= i)%nat /\ l !! (i - n)%nat = Some a /\ fires sym cur prev a = true.
Proof.
  induction l as [|a r IH]; intros n i; simpl.
  - split; [by intros ?%elem_of_nil | by intros (? & _ & ? & _)].
  - rewrite elem_of_app, IH. split.
    + intros [H|(b & Hle & Hb & Hf)].
      * destruct (fires sym cur prev a) eqn:E;
          [|by apply elem_of_nil in H].
        apply list_elem_of_singleton in H as ->.
        exists a. rewrite Nat.sub_diag. done.
      * exists b. split; [lia|]. split; [|done].
        replace (i - n)%nat with (S (i - S n)) by lia. done.
    + intros (b & Hle & Hb & Hf).
      destruct (decide (i = n)) as [->|Hne].
      * rewrite Nat.sub_diag in Hb. simpl in Hb. injection Hb as ->.
        rewrite Hf. left. by apply list_elem_of_singleton.
      * right. exists b. split; [lia|]. split; [|done].
        replace (i - n)%nat with (S (i - S n)) in Hb by lia. done.
Qed.

Lemma firing_NoDup l : forall n, NoDup (firing sym cur prev n l).
Proof.
  induction l as [|a r IH]; intros n; simpl; [constructor|].
  destruct (fires sym cur prev a); simpl; [|apply IH].
  constructor; [|apply IH].
  intros H%firing_ge. lia.
Qed.

(** Membership in the returned array, and the state of the element
    afterwards, for the element at position [i]. *)
Lemma checkAlerts_elem m i a :
  alerts m !! i = Some a ->
  (i ∈ (checkAlerts sym cur prev m).1 <-> fires sym cur prev a = true)
  /\ alerts (checkAlerts sym cur prev m).2 !! i = Some (after sym cur prev a).
Proof.
  intros Hi. rewrite checkAlerts_fired, checkAlerts_alerts, firing_elem. split.
  - rewrite Nat.sub_0_r. split.
    + intros (b & _ & Hb & Hf). congruence.
    + intros Hf. exists a. split; [lia|done].
  - by rewrite list_lookup_fmap, Hi.
Qed.

Lemma checkAlerts_NoDup m : NoDup (checkAlerts sym cur prev m).1.
Proof. rewrite checkAlerts_fired. apply firing_NoDup. Qed.

End AlertLoop.

(** ** Ticks through the client and the alert manager *)

Section Ticks.

Import Price Alerts Client App.

Lemma after_fields sym cur prev a :
  condition (after sym cur prev a) = condition a
  /\ price (after sym cur prev a) = price a
  /\ Alerts.symbol (after sym cur prev a) = Alerts.symbol a
  /\ enabled (after sym cur prev a) = enabled a
  /\ repeat (after sym cur prev a) = repeat a.
Proof. unfold after. by destruct (fires sym cur prev a). Qed.

Lemma after_fires sym cur prev a :
  fires sym cur prev a = true -> after sym cur prev a = set_triggered true a.
Proof. unfold after. by intros ->. Qed.

Lemma after_idle sym cur prev a :
  fires sym cur prev a = false -> after sym cur prev a = a.
Proof. unfold after. by intros ->. Qed.

Lemma timesFired_in i fired : NoDup fired -> i ∈ fired -> timesFired i fired = 1%nat.
Proof.
  intros Hnd Hin. unfold timesFired.
  apply NoDup_ListNoDup in Hnd. apply list_elem_of_In in Hin.
  by apply (proj1 (NoDup_count_occ' Nat.eq_dec fired) Hnd).
Qed.

Lemma timesFired_notin i fired : i ∉ fired -> timesFired i fired = 0%nat.
Proof.
  intros Hin. unfold timesFired. apply count_occ_not_In.
  by rewrite <- list_elem_of_In.
Qed.

Lemma onTick_registered sym p c m :
  truthy sym = true ->
  is_Some (map_get sym (callbacks c)) ->
  onTick sym p (c, m)
  = ((checkAlerts sym p (previousFor sym p c) m).1,
     (set_prices (<[sym := mkSample (previousFor sym p c) p]> (prices c)) c,
      (checkAlerts sym p (previousFor sym p c) m).2)).
Proof.
  intros Ht [cb Hcb]. unfold onTick, _handleMessage, tickMessage, previousFor.
  simpl. rewrite Ht. simpl. rewrite Hcb. unfold handlePriceTick.
  destruct (prices c !! sym) as [d|]; simpl;
    by destruct (checkAlerts _ _ _ m).
Qed.

Lemma previousFor_after sym p q c :
  previousFor sym q (set_prices (<[sym := mkSample (previousFor sym p c) p]> (prices c)) c)
  = p.
Proof. unfold previousFor. simpl. by rewrite lookup_insert_eq. Qed.

(** What one tick does to the alert at position [i]. *)
Lemma onTick_elem sym p c m i a :
  truthy sym = true ->
  is_Some (map_get sym (callbacks c)) ->
  alerts m !! i = Some a ->
  let r := onTick sym p (c, m) in
  (fires sym p (previousFor sym p c) a = true ->
     timesFired i r.1 = 1%nat /\ alerts r.2.2 !! i = Some (set_triggered true a))
  /\ (fires sym p (previousFor sym p c) a = false ->
     timesFired i r.1 = 0%nat /\ alerts r.2.2 !! i = Some a).
Proof.
  intros Ht Hcb Hi. simpl. rewrite onTick_registered by done. simpl.
  destruct (checkAlerts_elem sym p (previousFor sym p c) m i a Hi) as [Hin Hal].
  split; intros Hf.
  - split.
    + apply timesFired_in; [apply checkAlerts_NoDup | by apply Hin].
    + by rewrite Hal, after_fires.
  - split.
    + apply timesFired_notin. rewrite Hin. congruence.
    + by rewrite Hal, after_idle.
Qed.

End Ticks.

(** ** Alert conditions *)

Section Conditions.

Import Price Alerts Client App.

Ltac price_facts :=
  repeat match goal with
  | H : geb _ _ = true |- _ => apply geb_true in H
  | H : geb _ _ = false |- _ => apply geb_false in H
  | H : ltb _ _ = true |- _ => apply ltb_true in H
  | H : ltb _ _ = false |- _ => apply ltb_false in H
  | H : leb _ _ = true |- _ => apply leb_true in H
  | H : leb _ _ = false |- _ => apply leb_false in H
  | H : gtb _ _ = true |- _ => apply gtb_true in H
  end.

Lemma not_skipped a :
  enabled a = true ->
  triggered a && negb (repeat a) = false ->
  skipped a (Alerts.symbol a) = false.
Proof.
  intros He Ht. unfold skipped. by rewrite He, String.eqb_refl, Ht.
Qed.

Lemma fires_above a cur prev :
  condition a = "above"%string ->
  enabled a = true ->
  triggered a && negb (repeat a) = false ->
  fires (Alerts.symbol a) cur prev a = true
  <-> ((price a <= cur)%Q /\ (prev < price a)%Q)
      \/ ((price a <= cur)%Q /\ triggered a = false).
Proof.
  intros Hc He Ht. unfold fires. rewrite not_skipped by done.
  unfold conditionMet. rewrite Hc. simpl.
  destruct (geb cur (price a)) eqn:G, (ltb prev (price a)) eqn:L,
    (triggered a) eqn:T; simpl; price_facts;
    (split; [intros; try discriminate; auto
            | intros [[? ?]|[? ?]]; try done; try lra]).
Qed.

Lemma fires_crosses a cur prev :
  condition a = "crosses"%string ->
  enabled a = true ->
  triggered a && negb (repeat a) = false ->
  fires (Alerts.symbol a) cur prev a = true
  <-> ((price a <= cur)%Q /\ (prev < price a)%Q)
      \/ ((cur <= price a)%Q /\ (price a < prev)%Q).
Proof.
  intros Hc He Ht. unfold fires. rewrite not_skipped by done.
  unfold conditionMet. rewrite Hc. simpl. unfold gtb.
  destruct (geb cur (price a)) eqn:G, (ltb prev (price a)) eqn:L,
    (leb cur (price a)) eqn:G', (Qle_bool prev (price a)) eqn:L'; simpl;
    try apply Qle_bool_iff in L';
    try (apply not_true_iff_false in L'; rewrite Qle_bool_iff in L');
    price_facts;
    (split; [intros; try discriminate;
             first [left; split; lra | right; split; lra]
            | intros [[? ?]|[? ?]]; try done; try lra]).
Qed.

(** Without a crossing in either direction a [crosses] alert does not fire,
    whatever its own state. *)
Lemma crosses_needs_crossing sym a cur prev :
  condition a = "crosses"%string ->
  (geb cur (price a) && ltb prev (price a)) = false ->
  (leb cur (price a) && gtb prev (price a)) = false ->
  fires sym cur prev a = false.
Proof.
  intros Hc H1 H2. unfold fires, conditionMet. rewrite Hc. simpl.
  rewrite H1, H2. simpl. apply andb_false_r.
Qed.

Lemma feedTicks_one sym p st :
  feedTicks sym [p] st = ([(onTick sym p st).1], (onTick sym p st).2).
Proof. simpl. by destruct (onTick sym p st). Qed.

Lemma feedTicks_two sym p1 p2 st :
  feedTicks sym [p1; p2] st
  = ([(onTick sym p1 st).1; (onTick sym p2 (onTick sym p1 st).2).1],
     (onTick sym p2 (onTick sym p1 st).2).2).
Proof.
  simpl. destruct (onTick sym p1 st) as [f1 st1]. simpl.
  by destruct (onTick sym p2 st1).
Qed.

End Conditions.

(** ** Claims on the alert engine *)

Section AlertClaims.

Import Price Alerts Client App.

Lemma onTick_client sym p c m :
  truthy sym = true ->
  is_Some (map_get sym (callbacks c)) ->
  (onTick sym p (c, m)).2.1
  = set_prices (<[sym := mkSample (previousFor sym p c) p]> (prices c)) c.
Proof. intros Ht Hcb. by rewrite onTick_registered. Qed.

Lemma same_price_no_crossing (p t : Q) :
  (geb p t && ltb p t) = false /\ (leb p t && gtb p t) = false.
Proof.
  split.
  - destruct (geb p t) eqn:G, (ltb p t) eqn:L; try done.
    apply geb_true in G. apply ltb_true in L. lra.
  - destruct (leb p t) eqn:G, (gtb p t) eqn:L; try done.
    apply leb_true in G. apply gtb_true in L. lra.
Qed.

Lemma beyond_no_crossing (t : Q) :
  (geb (t + 1) t && ltb (t + 1) t) = false
  /\ (leb (t + 1) t && gtb (t + 1) t) = false.
Proof. apply same_price_no_crossing. Qed.

(** C1. An enabled [above] alert that the loop does not skip is returned by
    [checkAlerts] for its symbol exactly when the current price is at or
    above the target and either the previous price was below it or the alert
    has not triggered yet; when returned it is marked triggered. Hence, for
    an alert that has not triggered and whose symbol has a callback
    registered, the ticks [T-1, T+1] fire it at the second tick and not at the
    first, and the single tick [T+1] fires it at once, whatever the price
    store held before (on a first observation in particular). *)
Theorem above_rule_fires (c : DerivClient) (m : AlertManager) (i : nat) (a : Alert) :
  alerts m !! i = Some a ->
  condition a = "above"%string ->
  enabled a = true ->
  triggered a && negb (repeat a) = false ->
  (forall cur prev : Q,
     let r := checkAlerts (Alerts.symbol a) cur prev m in
     (i ∈ r.1 <-> ((price a <= cur)%Q /\ (prev < price a)%Q)
                  \/ ((price a <= cur)%Q /\ triggered a = false))
     /\ (i ∈ r.1 -> alerts r.2 !! i = Some (set_triggered true a)))
  /\ (triggered a = false ->
      truthy (Alerts.symbol a) = true ->
      is_Some (map_get (Alerts.symbol a) (callbacks c)) ->
      (let r := feedTicks (Alerts.symbol a) [(price a - 1)%Q; (price a + 1)%Q] (c, m) in
       exists f1 f2, r.1 = [f1; f2]
         /\ timesFired i f1 = 0%nat /\ timesFired i f2 = 1%nat
         /\ alerts r.2.2 !! i = Some (set_triggered true a))
      /\ (let r := feedTicks (Alerts.symbol a) [(price a + 1)%Q] (c, m) in
          exists f1, r.1 = [f1]
            /\ timesFired i f1 = 1%nat
            /\ alerts r.2.2 !! i = Some (set_triggered true a))).
Proof.
  intros Hi Hc He Hs. split.
  - intros cur prev r. subst r.
    destruct (checkAlerts_elem (Alerts.symbol a) cur prev m i a Hi) as [Hin Hal].
    rewrite Hin, Hal. split; [by apply fires_above|].
    intros Hf. by rewrite after_fires.
  - intros Ht Hsym Hcb. split.
    + cbv zeta. rewrite feedTicks_two. simpl. eexists _, _. split; [done|].
      set (sym := Alerts.symbol a) in *.
      assert (Hno : forall q, fires sym (price a - 1) q a = false).
      { intros q. apply not_true_iff_false. unfold sym.
        rewrite fires_above by done. intros [[? _]|[? _]]; lra. }
      destruct (onTick_elem sym (price a - 1) c m i a Hsym Hcb Hi) as [_ H1].
      destruct (H1 (Hno _)) as [Hf1 Hal1]. clear H1.
      pose proof (onTick_client sym (price a - 1) c m Hsym Hcb) as Hc1.
      destruct (onTick sym (price a - 1) (c, m)) as [f1 [c1 m1]].
      simpl in Hf1, Hal1, Hc1 |- *. split; [done|].
      assert (Hcb1 : is_Some (map_get sym (callbacks c1))) by by subst c1.
      destruct (onTick_elem sym (price a + 1) c1 m1 i a Hsym Hcb1 Hal1) as [H2 _].
      apply H2. subst c1. rewrite previousFor_after. unfold sym.
      rewrite fires_above by done. left. split; lra.
    + cbv zeta. rewrite feedTicks_one. simpl. eexists. split; [done|].
      destruct (onTick_elem (Alerts.symbol a) (price a + 1) c m i a Hsym Hcb Hi)
        as [H1 _].
      apply H1. rewrite fires_above by done. right. split; [lra|done].
Qed.

(** C6. An enabled [crosses] alert that the loop does not skip is returned by
    [checkAlerts] for its symbol exactly when the price crossed the target
    upwards (current at or above, previous below) or downwards (current at or
    below, previous above); there is no first-observation exemption. Hence,
    when its symbol has a callback registered, the ticks [T+1, T+1] fire it
    at most once and never at the second tick: not at all on a fresh symbol,
    and exactly once, at the first tick, when the stored price was below [T].
    The first tick of a fresh symbol never fires it, whatever its price. *)
Theorem crosses_rule_fires (c : DerivClient) (m : AlertManager) (i : nat) (a : Alert) :
  alerts m !! i = Some a ->
  condition a = "crosses"%string ->
  enabled a = true ->
  triggered a && negb (repeat a) = false ->
  (forall cur prev : Q,
     i ∈ (checkAlerts (Alerts.symbol a) cur prev m).1
     <-> ((price a <= cur)%Q /\ (prev < price a)%Q)
         \/ ((cur <= price a)%Q /\ (price a < prev)%Q))
  /\ (truthy (Alerts.symbol a) = true ->
      is_Some (map_get (Alerts.symbol a) (callbacks c)) ->
      (let r := feedTicks (Alerts.symbol a) [(price a + 1)%Q; (price a + 1)%Q] (c, m) in
       exists f1 f2, r.1 = [f1; f2]
         /\ timesFired i f2 = 0%nat
         /\ (timesFired i f1 + timesFired i f2 <= 1)%nat
         /\ (prices c !! Alerts.symbol a = None -> timesFired i f1 = 0%nat)
         /\ (forall d, prices c !! Alerts.symbol a = Some d ->
                        (current d < price a)%Q -> timesFired i f1 = 1%nat))
      /\ (forall p : Q,
            prices c !! Alerts.symbol a = None ->
            timesFired i (onTick (Alerts.symbol a) p (c, m)).1 = 0%nat)).
Proof.
  intros Hi Hc He Hs. split.
  - intros cur prev.
    destruct (checkAlerts_elem (Alerts.symbol a) cur prev m i a Hi) as [Hin _].
    rewrite Hin. by apply fires_crosses.
  - intros Hsym Hcb.
    set (sym := Alerts.symbol a) in *.
    assert (Hfresh : forall p, prices c !! sym = None ->
              timesFired i (onTick sym p (c, m)).1 = 0%nat).
    { intros p Hp.
      destruct (onTick_elem sym p c m i a Hsym Hcb Hi) as [_ H1].
      apply H1. unfold previousFor. rewrite Hp.
      apply crosses_needs_crossing; [done|apply same_price_no_crossing..]. }
    split; [|done].
    cbv zeta. rewrite feedTicks_two. simpl. eexists _, _. split; [done|].
    pose proof (onTick_elem sym (price a + 1) c m i a Hsym Hcb Hi) as [H1 H1'].
    pose proof (onTick_client sym (price a + 1) c m Hsym Hcb) as Hc1.
    specialize (Hfresh (price a + 1)%Q).
    assert (Hbelow : forall d, prices c !! sym = Some d -> (current d < price a)%Q ->
              timesFired i (onTick sym (price a + 1) (c, m)).1 = 1%nat).
    { intros d Hd Hlt. apply H1. unfold previousFor. rewrite Hd. unfold sym.
      rewrite fires_crosses by done. left. split; [lra|done]. }
    destruct (onTick sym (price a + 1) (c, m)) as [f1 [c1 m1]].
    simpl in H1, H1', Hc1, Hfresh, Hbelow |- *.
    assert (Hcb1 : is_Some (map_get sym (callbacks c1))) by by subst c1.
    assert (exists a1, alerts m1 !! i = Some a1 /\ condition a1 = "crosses"%string
                       /\ price a1 = price a /\ (timesFired i f1 <= 1)%nat)
      as (a1 & Hal1 & Hc1' & Hp1 & Hle).
    { destruct (fires sym (price a + 1) (previousFor sym (price a + 1) c) a) eqn:E.
      - destruct (H1 eq_refl) as [-> ->]. by eexists.
      - destruct (H1' eq_refl) as [-> ->]. exists a. repeat split; [done..|lia]. }
    assert (Hf2 : timesFired i (onTick sym (price a + 1) (c1, m1)).1 = 0%nat).
    { destruct (onTick_elem sym (price a + 1) c1 m1 i a1 Hsym Hcb1 Hal1) as [_ H2].
      apply H2. subst c1. rewrite previousFor_after.
      apply crosses_needs_crossing; [done|rewrite Hp1; apply beyond_no_crossing..]. }
    rewrite Hf2. repeat split; [lia|done|done].
Qed.

End AlertClaims.

(** ** Removing an alert *)

Section Removal.

Import Alerts.

(** C10. [removeAlert(id)] returns [true] exactly when some rule has that
    id; when it returns [false] the manager is left as it was: the rules, their
    numbers and the storage (nothing is saved). *)
Theorem removeAlert_result (i : Z) (m : AlertManager) :
  ((removeAlert i m).1 = true <-> exists a, a ∈ alerts m /\ id a = i)
  /\ ((removeAlert i m).1 = false -> (removeAlert i m).2 = m)
  /\ ((forall a, a ∈ alerts m -> id a <> i) -> removeAlert i m = (false, m)).
Proof.
  unfold removeAlert.
  destruct (list_find (fun a => id a = i) (alerts m)) as [[index a]|] eqn:E; simpl.
  - apply list_find_Some in E as (Hl & Ha & _).
    apply list_elem_of_lookup_2 in Hl.
    split; [split; [by exists a | done]|].
    split; [done|]. intros Hno. by destruct (Hno a Hl).
  - apply list_find_None in E. rewrite Forall_forall in E.
    split; [split; [done|]|done].
    intros (a & Ha & Hid). by destruct (E a Ha).
Qed.

End Removal.

(** ** Insertion-ordered maps *)

Section OrderedMaps.

Import Client.

Context {V : Type}.

Implicit Types (l : list (string * V)) (k : string) (v : V).

Lemma map_get_set_eq k v l : map_get k (map_set k v l) = Some v.
Proof.
  induction l as [|[k' v'] r IH]; simpl.
  - by rewrite String.eqb_refl.
  - destruct (String.eqb k' k) eqn:E; simpl; by rewrite E.
Qed.

Lemma map_get_set_ne k k' v l :
  k <> k' -> map_get k' (map_set k v l) = map_get k' l.
Proof.
  intros Hne. induction l as [|[k0 v0] r IH]; simpl.
  - apply String.eqb_neq in Hne. by rewrite Hne.
  - destruct (String.eqb k0 k) eqn:E; simpl.
    + apply String.eqb_eq in E as ->.
      apply String.eqb_neq in Hne. by rewrite Hne.
    + by rewrite IH.
Qed.

Lemma map_set_id k v l : map_get k l = Some v -> map_set k v l = l.
Proof.
  induction l as [|[k' v'] r IH]; simpl; [done|].
  destruct (String.eqb k' k) eqn:E.
  - by intros [= ->].
  - intros H. by rewrite IH.
Qed.

Lemma map_get_unique k v l :
  NoDup l.*1 -> (k, v) ∈ l -> map_get k l = Some v.
Proof.
  induction l as [|[k' v'] r IH]; simpl.
  - by intros _ ?%elem_of_nil.
  - intros [Hnotin Hnd]%NoDup_cons [Heq|Hin]%elem_of_cons.
    + injection Heq as -> ->. by rewrite String.eqb_refl.
    + destruct (String.eqb k' k) eqn:E; [|by apply IH].
      apply String.eqb_eq in E as ->. destruct Hnotin.
      apply list_elem_of_fmap. by exists (k, v).
Qed.

End OrderedMaps.

(** ** Claims on the price store and the registry *)

Section StoreClaims.

Import Client.

(** C5. A well-formed tick of price [p] for a symbol with no stored sample
    stores previous = current = [p]; for a symbol with a stored sample it
    stores previous = the old current and current = [p]. The registered
    callback, if any, is called once with [p] and the old current price ([p]
    itself on the first tick). The samples of other symbols are untouched. *)
Theorem tick_updates_sample (c : DerivClient) (sym : string) (p : Q) :
  truthy sym = true ->
  let r := _handleMessage (tickMessage sym p) c in
  (prices c !! sym = None ->
     prices r.1 !! sym = Some {| previous := p; current := p |}
     /\ r.2 = match map_get sym (callbacks c) with
              | Some cb => [Call cb sym p p]
              | None => []
              end)
  /\ (forall d, prices c !! sym = Some d ->
        prices r.1 !! sym = Some {| previous := current d; current := p |}
        /\ r.2 = match map_get sym (callbacks c) with
                 | Some cb => [Call cb sym p (current d)]
                 | None => []
                 end)
  /\ (forall s, s <> sym -> prices r.1 !! s = prices c !! s).
Proof.
  intros Ht. unfold _handleMessage, tickMessage. simpl. rewrite Ht. simpl.
  split; [|split].
  - intros ->. simpl. by rewrite lookup_insert_eq.
  - intros d ->. simpl. by rewrite lookup_insert_eq.
  - intros s Hne. by rewrite lookup_insert_ne.
Qed.

Lemma subscribe_registered sym cb c :
  is_Some (subscriptions c !! sym) ->
  subscribe sym cb c
  = (set_callbacks (map_set sym cb (callbacks c)) c,
     [Log (LogAlreadySubscribed sym)], inl Resolved).
Proof. intros H. unfold subscribe. by rewrite bool_decide_eq_true_2. Qed.

Lemma subscribeEach_registered sym cbs : forall c,
  is_Some (subscriptions c !! sym) ->
  sentFrames (subscribeEach sym cbs c).2 = []
  /\ subscriptions (subscribeEach sym cbs c).1 = subscriptions c
  /\ reqId (subscribeEach sym cbs c).1 = reqId c.
Proof.
  induction cbs as [|cb rest IH]; intros c H; simpl; [done|].
  rewrite subscribe_registered by done.
  specialize (IH (set_callbacks (map_set sym cb (callbacks c)) c) H).
  destruct (subscribeEach sym rest _) as [c2 e2]. simpl in *. done.
Qed.

(** C8. [subscribe(symbol, callback)] for a symbol that is in the
    subscription registry resolves at once, sends no frame, leaves the
    registry of subscription handles and the request counter as they were,
    and makes [callback] the callback of the symbol, the other symbols keeping
    theirs. So however often it is called again for that symbol, no subscribe
    request goes upstream. *)
Theorem subscribe_again (c : DerivClient) (sym : string) (cb : Callback) :
  is_Some (subscriptions c !! sym) ->
  let r := subscribe sym cb c in
  r.2 = inl Resolved
  /\ sentFrames r.1.2 = []
  /\ subscriptions r.1.1 = subscriptions c
  /\ reqId r.1.1 = reqId c
  /\ map_get sym (callbacks r.1.1) = Some cb
  /\ (forall s, s <> sym -> map_get s (callbacks r.1.1) = map_get s (callbacks c))
  /\ (forall cbs, sentFrames (subscribeEach sym cbs c).2 = []
                  /\ subscriptions (subscribeEach sym cbs c).1 = subscriptions c).
Proof.
  intros H. cbv zeta. rewrite subscribe_registered by done. simpl.
  repeat split; try done.
  - apply map_get_set_eq.
  - intros s Hne. by apply map_get_set_ne.
  - by apply subscribeEach_registered.
  - by apply subscribeEach_registered.
Qed.

End StoreClaims.

(** ** Claims on the symbol resolver *)

Section Resolver.

Import Client.

Lemma aliases_wellformed :
  Forall (fun e => toUpperCase e.1 = e.1
                   /\ map_get e.1 SYMBOL_ALIASES = Some e.2
                   /\ truthy e.2 = true) SYMBOL_ALIASES.
Proof. unfold SYMBOL_ALIASES. repeat (constructor; [by vm_compute|]). constructor. Qed.

Lemma map_get_elem {V : Type} k (v : V) l : map_get k l = Some v -> (k, v) ∈ l.
Proof.
  induction l as [|[k' v'] r IH]; simpl; [done|].
  destruct (String.eqb k' k) eqn:E.
  - apply String.eqb_eq in E as ->. intros [= ->]. apply elem_of_cons. by left.
  - intros H. apply elem_of_cons. right. by apply IH.
Qed.

Lemma find_first {A : Type} (f : A -> bool) pre x post :
  (forall y, y ∈ pre -> f y = false) -> f x = true ->
  List.find f (pre ++ x :: post) = Some x.
Proof.
  intros Hpre Hx. induction pre as [|y pre IH]; simpl.
  - by rewrite Hx.
  - rewrite (Hpre y) by (apply elem_of_cons; by left).
    apply IH. intros z Hz. apply Hpre. apply elem_of_cons. by right.
Qed.

Lemma find_none_all {A : Type} (f : A -> bool) l :
  (forall y, y ∈ l -> f y = false) -> List.find f l = None.
Proof.
  intros H. induction l as [|y l IH]; simpl; [done|].
  rewrite (H y) by (apply elem_of_cons; by left).
  apply IH. intros z Hz. apply H. apply elem_of_cons. by right.
Qed.

(** C7, as the code has it. With an alias table whose targets are all
    non-empty (as in [SYMBOL_ALIASES]), [resolveSymbol(input)] compares on the
    uppercased input: an alias entry for it gives the mapped symbol; failing
    that, the first active symbol equal to it up to case is returned in its
    own spelling; failing that, the input is returned as it was given, not
    uppercased. *)
Theorem resolveSymbol_cases (c : DerivClient) (input : string) :
  Forall (fun e => truthy e.2 = true) (symbolAliases c) ->
  (forall target,
     map_get (toUpperCase input) (symbolAliases c) = Some target ->
     resolveSymbol input c = target)
  /\ (forall pre s post,
        map_get (toUpperCase input) (symbolAliases c) = None ->
        activeSymbols c = pre ++ s :: post ->
        (forall x, x ∈ pre -> toUpperCase x <> toUpperCase input) ->
        toUpperCase s = toUpperCase input ->
        resolveSymbol input c = s)
  /\ (map_get (toUpperCase input) (symbolAliases c) = None ->
      (forall x, x ∈ activeSymbols c -> toUpperCase x <> toUpperCase input) ->
      resolveSymbol input c = input).
Proof.
  intros Hall. unfold resolveSymbol. split; [|split].
  - intros target H. rewrite H.
    rewrite Forall_forall in Hall.
    pose proof (Hall (toUpperCase input, target) (map_get_elem _ _ _ H)) as Ht.
    simpl in Ht. by rewrite Ht.
  - intros pre s post -> -> Hpre Hs.
    rewrite find_first; [done| |by apply String.eqb_eq].
    intros y Hy. apply String.eqb_neq. by apply Hpre.
  - intros -> Hno.
    rewrite find_none_all; [done|].
    intros y Hy. apply String.eqb_neq. by apply Hno.
Qed.

(** C9. With the built-in alias table, an alias returned by [getAlias(s)]
    has at most four characters and [resolveSymbol] maps it back to [s],
    whatever the active symbols are; and [getAlias] depends on the alias table
    and the symbol only, so that calling it again, on the client in any later
    state, returns the same alias. *)
Theorem alias_round_trip (c : DerivClient) (s a : string) :
  symbolAliases c = SYMBOL_ALIASES ->
  getAlias s c = Some a ->
  (String.length a <= 4)%nat
  /\ resolveSymbol a c = s
  /\ (forall c', symbolAliases c' = symbolAliases c -> getAlias s c' = Some a).
Proof.
  intros Hc Ha. split; [|split].
  - unfold getAlias in Ha.
    destruct (List.find _ (symbolAliases c)) as [e|] eqn:E; [|done].
    injection Ha as <-. apply find_some in E as [_ [_ H]%andb_true_iff].
    by apply Nat.leb_le.
  - unfold getAlias in Ha. rewrite Hc in Ha.
    destruct (List.find _ SYMBOL_ALIASES) as [e|] eqn:E; [|done].
    injection Ha as <-. apply find_some in E as [Hin [Hs _]%andb_true_iff].
    apply String.eqb_eq in Hs. apply list_elem_of_In in Hin.
    pose proof aliases_wellformed as W. rewrite Forall_forall in W.
    destruct (W e Hin) as (Hup & Hget & Htr).
    unfold resolveSymbol. rewrite Hc, Hup, Hget, Htr. done.
  - intros c' Hc'. unfold getAlias in *. by rewrite Hc'.
Qed.

End Resolver.

(** ** Claims on the connection life cycle *)

Section Connection.

Import Client.

Lemma backoff_bounds (n : nat) : 2000 <= backoff (S n) <= 30000.
Proof.
  unfold backoff. rewrite Nat2Z.inj_succ, Z.pow_succ_r by lia.
  assert (0 < 2 ^ Z.of_nat n) by (apply Z.pow_pos_nonneg; lia). lia.
Qed.

Lemma attemptReconnect_below c :
  (reconnectAttempts c < maxReconnectAttempts c)%nat ->
  _attemptReconnect c
  = (set_reconnectAttempts (S (reconnectAttempts c)) c,
     [Log (LogReconnecting (backoff (S (reconnectAttempts c))) (S (reconnectAttempts c)));
      SetTimeout (backoff (S (reconnectAttempts c)))]).
Proof.
  intros H. unfold _attemptReconnect.
  destruct (Nat.leb_spec (maxReconnectAttempts c) (reconnectAttempts c)); [lia|done].
Qed.

Lemma attemptReconnect_exhausted c :
  (maxReconnectAttempts c <= reconnectAttempts c)%nat ->
  _attemptReconnect c = (c, [Log LogMaxReconnect; Exit 1]).
Proof.
  intros H. unfold _attemptReconnect.
  destruct (Nat.leb_spec (maxReconnectAttempts c) (reconnectAttempts c)); [done|lia].
Qed.

Lemma timeouts_app es1 es2 : timeouts (es1 ++ es2) = timeouts es1 ++ timeouts es2.
Proof. unfold timeouts. apply flat_map_app. Qed.

Lemma stopPing_effects c :
  (_stopPing c).1 = c /\ timeouts (_stopPing c).2 = []
  /\ (forall h, pingInterval c = Some h -> (_stopPing c).2 = [ClearInterval h]).
Proof.
  unfold _stopPing. destruct (pingInterval c) as [h|]; simpl; repeat split; try done.
  by intros ? [= ->].
Qed.

Lemma onClose_timeouts c :
  timeouts (onClose c).2 = timeouts (_attemptReconnect (set_connected false c)).2
  /\ reconnectAttempts (onClose c).1
     = reconnectAttempts (_attemptReconnect (set_connected false c)).1.
Proof.
  unfold onClose, _stopPing. simpl.
  destruct (pingInterval c); simpl;
    by destruct (_attemptReconnect (set_connected false c)).
Qed.

(** C4, as the code has it. The close handler, while the attempt limit is not
    reached, first increments the attempt counter and then sets one timer,
    with delay min(1000 * 2^(n+1), 30000) milliseconds where [n] is the
    counter before the close. The delay is never above 30 seconds and never
    below 2 seconds; after a successful connection ([n] = 0) it is 2
    seconds. *)
Theorem reconnect_backoff (c : DerivClient) :
  (reconnectAttempts c < maxReconnectAttempts c)%nat ->
  let r := onClose c in
  timeouts r.2 = [Z.min (1000 * 2 ^ (Z.of_nat (reconnectAttempts c) + 1)) 30000]
  /\ reconnectAttempts r.1 = S (reconnectAttempts c)
  /\ (forall d, d ∈ timeouts r.2 -> 2000 <= d <= 30000)
  /\ (reconnectAttempts c = 0%nat -> timeouts r.2 = [2000]).
Proof.
  intros H. cbv zeta.
  destruct (onClose_timeouts c) as [-> ->].
  rewrite attemptReconnect_below by done. simpl.
  replace (Z.of_nat (reconnectAttempts c) + 1) with (Z.of_nat (S (reconnectAttempts c)))
    by lia.
  split; [done|]. split; [done|]. split.
  - intros d Hd. apply list_elem_of_singleton in Hd as ->. apply backoff_bounds.
  - by intros ->.
Qed.

(** C2, as the code has it. [disconnect()] on a client whose socket is not
    closed stops the heartbeat and closes the socket, and sets no timer
    itself. The client keeps no mark of the request: the close event the
    socket then emits runs the close handler as after any loss of connection,
    which sets the reconnect timer while the attempt limit is not reached and
    exits the process otherwise. *)
Theorem disconnect_then_close (c : DerivClient) (s : ReadyState) :
  ws c = Some s ->
  s <> CLOSED ->
  let r := disconnect c in
  (forall h, pingInterval c = Some h -> ClearInterval h ∈ r.2)
  /\ CloseSocket ∈ r.2
  /\ ws r.1 = Some CLOSING
  /\ timeouts r.2 = []
  /\ dispatch EvClose r.1 = Some (onClose (set_ws (Some CLOSED) r.1))
  /\ ((reconnectAttempts c < maxReconnectAttempts c)%nat ->
      timeouts (onClose (set_ws (Some CLOSED) r.1)).2
      = [backoff (S (reconnectAttempts c))])
  /\ ((maxReconnectAttempts c <= reconnectAttempts c)%nat ->
      Exit 1 ∈ (onClose (set_ws (Some CLOSED) r.1)).2).
Proof.
  intros Hws Hs. cbv zeta. unfold disconnect, _stopPing.
  assert (Hcl : ws_close s = CLOSING) by by destruct s.
  destruct (pingInterval c) as [h|] eqn:Hp; simpl; rewrite Hws, Hcl; simpl.
  - split; [intros ? [= <-]; apply elem_of_cons; by left|].
    split; [apply elem_of_cons; right; apply elem_of_cons; by left|].
    repeat split.
    + intros H. rewrite (proj1 (onClose_timeouts _)).
      by rewrite attemptReconnect_below.
    + intros H. unfold onClose, _stopPing. simpl. rewrite Hp.
      rewrite attemptReconnect_exhausted by done. simpl.
      do 3 (apply elem_of_cons; right). apply elem_of_cons. by left.
  - split; [done|].
    split; [apply elem_of_cons; by left|].
    repeat split.
    + intros H. rewrite (proj1 (onClose_timeouts _)).
      by rewrite attemptReconnect_below.
    + intros H. unfold onClose, _stopPing. simpl. rewrite Hp.
      rewrite attemptReconnect_exhausted by done. simpl.
      do 2 (apply elem_of_cons; right). apply elem_of_cons. by left.
Qed.

End Connection.

(** ** Resubscription replay *)

Section Replay.

Import Client.

Variable feed : nat -> option Message.

Lemma requested_app es1 es2 : requested (es1 ++ es2) = requested es1 ++ requested es2.
Proof. unfold requested. apply flat_map_app. Qed.

(** The first request of a replay goes out with the next request id. *)
Lemma subscribe_fresh sym cb c :
  subscribe sym cb (set_subscriptions (delete sym (subscriptions c)) c)
  = (set_reqId (S (reqId c)) (set_subscriptions (delete sym (subscriptions c)) c),
     [Send (TicksSubscribe sym (S (reqId c)))], inr (S (reqId c))).
Proof.
  unfold subscribe. simpl. rewrite bool_decide_eq_false_2; [done|].
  rewrite lookup_delete_eq. by intros [? ?].
Qed.

Lemma replay_step_ok sym cb rest c :
  verdict (S (reqId c)) (feed (S (reqId c))) = Resolved ->
  map_get sym (callbacks c) = Some cb ->
  exists c3 sid,
    replay feed ((sym, cb) :: rest) c
    = (let '(c4, e4, out) := replay feed rest c3 in
       (c4, [Send (TicksSubscribe sym (S (reqId c)))]
            ++ [Log (LogSubscribed sym)] ++ e4, out))
    /\ reqId c3 = S (reqId c)
    /\ callbacks c3 = callbacks c
    /\ subscriptions c3 = <[sym := sid]> (subscriptions c).
Proof.
  intros Hv Hcb. simpl. rewrite subscribe_fresh.
  unfold verdict in Hv. destruct (feed (S (reqId c))) as [msg|]; [|done].
  unfold messageHandler. destruct (bool_decide _); [|done].
  destruct (error msg); [done|]. destruct (subscription msg) as [sid|]; [|done].
  eexists _, sid. split; [reflexivity|]. simpl.
  rewrite map_set_id by done. by rewrite insert_delete_eq.
Qed.

Lemma replay_step_fail sym cb rest c reason :
  verdict (S (reqId c)) (feed (S (reqId c))) = Rejected reason ->
  exists c3,
    replay feed ((sym, cb) :: rest) c
    = (c3, [Send (TicksSubscribe sym (S (reqId c)));
            Log (LogReconnectionFailed reason)], Aborted reason)
    /\ callbacks c3 = callbacks c
    /\ subscriptions c3 = delete sym (subscriptions c).
Proof.
  intros Hv. simpl. rewrite subscribe_fresh.
  unfold verdict in Hv. destruct (feed (S (reqId c))) as [msg|]; [|done].
  unfold messageHandler. destruct (bool_decide _); [|done].
  destruct (error msg) as [m|].
  - injection Hv as ->. by eexists.
  - by destruct (subscription msg).
Qed.

(** A run of accepted requests. *)
Lemma replay_prefix accepted : forall rest c,
  (forall k, (k < length accepted)%nat ->
             verdict (reqId c + S k) (feed (reqId c + S k)) = Resolved) ->
  Forall (fun e => map_get e.1 (callbacks c) = Some e.2) accepted ->
  exists c' es,
    replay feed (accepted ++ rest) c
    = (let '(c4, e4, out) := replay feed rest c' in (c4, es ++ e4, out))
    /\ reqId c' = (reqId c + length accepted)%nat
    /\ callbacks c' = callbacks c
    /\ requested es = accepted.*1
    /\ (forall s, s ∉ accepted.*1 -> subscriptions c' !! s = subscriptions c !! s)
    /\ (forall s, s ∈ accepted.*1 -> is_Some (subscriptions c' !! s)).
Proof.
  induction accepted as [|[sym cb] l IH]; intros rest c Hv Hb.
  - exists c, []. simpl. split; [by destruct (replay feed rest c) as [[? ?] ?]|].
    repeat split; try done; try lia. by intros s ?%elem_of_nil.
  - apply Forall_cons in Hb as [Hb1 Hb]. simpl in Hb1.
    assert (Hv0 : verdict (S (reqId c)) (feed (S (reqId c))) = Resolved).
    { specialize (Hv 0%nat). rewrite Nat.add_1_r in Hv. apply Hv. simpl. lia. }
    destruct (replay_step_ok sym cb (l ++ rest) c Hv0 Hb1)
      as (c3 & sid & Heq & Hr3 & Hc3 & Hs3).
    destruct (IH rest c3) as (c' & es & Heq' & Hr' & Hc' & Hreq & Hout & Hin).
    { intros k Hk. rewrite Hr3.
      replace (S (reqId c) + S k)%nat with (reqId c + S (S k))%nat by lia.
      apply Hv. simpl. lia. }
    { by rewrite Hc3. }
    exists c', ([Send (TicksSubscribe sym (S (reqId c)))] ++ [Log (LogSubscribed sym)] ++ es).
    split.
    { change ((sym, cb) :: l ++ rest) with ((sym, cb) :: (l ++ rest)) in *.
      simpl app at 1. rewrite Heq, Heq'.
      destruct (replay feed rest c') as [[c4 e4] out]. by rewrite <- !app_assoc. }
    split; [simpl; lia|]. split; [congruence|].
    split; [simpl; by rewrite Hreq|]. split.
    + intros s Hs. rewrite fmap_cons, not_elem_of_cons in Hs. destruct Hs as [Hne Hs].
      rewrite Hout, Hs3 by done. by rewrite lookup_insert_ne.
    + intros s Hs. rewrite fmap_cons, elem_of_cons in Hs.
      destruct (decide (s ∈ l.*1)) as [Hl|Hl]; [by apply Hin|].
      destruct Hs as [->|Hs]; [|done].
      rewrite Hout, Hs3 by done. rewrite lookup_insert_eq. by eexists.
Qed.

(** Whatever the feed answers, the callback registry comes out of the replay
    as it went in, and the requests sent are for a prefix of the entries. *)
Lemma replay_keeps_callbacks entries : forall c,
  Forall (fun e => map_get e.1 (callbacks c) = Some e.2) entries ->
  callbacks (replay feed entries c).1.1 = callbacks c
  /\ requested (replay feed entries c).1.2 `prefix_of` entries.*1.
Proof.
  induction entries as [|[sym cb] rest IH]; intros c Hb.
  - simpl. split; [done|]. by exists [].
  - apply Forall_cons in Hb as [Hb1 Hb]. simpl in Hb1.
    simpl. rewrite subscribe_fresh.
    assert (Hone : [sym] `prefix_of` sym :: rest.*1) by (by exists rest.*1).
    destruct (feed (S (reqId c))) as [msg|]; [|by split].
    unfold messageHandler. destruct (bool_decide _); [|by split].
    destruct (error msg) as [m|]; [by split|].
    destruct (subscription msg) as [sid|]; [|by split].
    match goal with |- context [replay feed rest ?c0] =>
      destruct (IH c0) as [Hc Hp];
        [simpl; by rewrite map_set_id|
         destruct (replay feed rest c0) as [[c4 e4] out]] end.
    simpl in *. rewrite map_set_id in Hc by done. split; [done|].
    by apply prefix_cons.
Qed.

End Replay.

Section ReplayClaim.

Import Client.

Lemma registry_bound (c : DerivClient) :
  NoDup (callbacks c).*1 ->
  Forall (fun e => map_get e.1 (callbacks c) = Some e.2) (callbacks c).
Proof.
  intros Hnd. apply Forall_forall. intros [s cb] Hin. by apply map_get_unique.
Qed.

(** C3, as the code has it. The replay visits the registered symbol/callback
    pairs in registry order inside a single [try]: it sends the subscribe
    requests for a prefix of them, and the callback registry comes out as it
    went in. If the requests before some symbol are accepted and the request
    for that symbol is refused, the refusal is logged and the replay ends
    there: no request is sent for the symbols after it, which keep the
    subscription handle they had. If every request is accepted, every symbol
    is requested, once and in order, and has a subscription handle again. *)
Theorem replay_stops_at_first_failure
    (feed : nat -> option Message) (c : DerivClient) :
  NoDup (callbacks c).*1 ->
  let r := resubscribeAll feed c in
  callbacks r.1.1 = callbacks c
  /\ requested r.1.2 `prefix_of` (callbacks c).*1
  /\ (forall accepted sym cb rest reason,
        callbacks c = accepted ++ (sym, cb) :: rest ->
        (forall k, (k < length accepted)%nat ->
                   verdict (reqId c + S k) (feed (reqId c + S k)%nat) = Resolved) ->
        verdict (reqId c + S (length accepted))
                (feed (reqId c + S (length accepted))%nat)
        = Rejected reason ->
        r.2 = Aborted reason
        /\ requested r.1.2 = accepted.*1 ++ [sym]
        /\ Log (LogReconnectionFailed reason) ∈ r.1.2
        /\ (forall s, s ∈ rest.*1 ->
              (s ∉ requested r.1.2)
              /\ subscriptions r.1.1 !! s = subscriptions c !! s))
  /\ ((forall k, (k < length (callbacks c))%nat ->
                 verdict (reqId c + S k) (feed (reqId c + S k)%nat) = Resolved) ->
      r.2 = Completed
      /\ requested r.1.2 = (callbacks c).*1
      /\ (forall s, s ∈ (callbacks c).*1 -> is_Some (subscriptions r.1.1 !! s))).
Proof.
  intros Hnd. cbv zeta. unfold resubscribeAll.
  pose proof (registry_bound c Hnd) as Hb.
  destruct (replay_keeps_callbacks feed (callbacks c) c Hb) as [Hcb Hpre].
  split; [done|]. split; [done|]. split.
  - intros accepted sym cb rest reason Heq Hok Hfail.
    assert (Hba : Forall (fun e => map_get e.1 (callbacks c) = Some e.2) accepted).
    { apply Forall_forall. intros e He. rewrite Forall_forall in Hb.
      apply Hb. rewrite Heq. apply elem_of_app. by left. }
    clear Hb. rename Hba into Hb.
    rewrite Heq in Hnd.
    rewrite fmap_app, fmap_cons in Hnd. simpl in Hnd.
    apply NoDup_app in Hnd as (_ & Hdisj & [Hsym _]%NoDup_cons).
    destruct (replay_prefix feed accepted ((sym, cb) :: rest) c Hok Hb)
      as (c' & es & Hrun & Hr' & Hc' & Hreq & Hout & _).
    rewrite Nat.add_succ_r, <- Hr' in Hfail.
    destruct (replay_step_fail feed sym cb rest c' reason Hfail)
      as (c3 & Hstep & Hc3 & Hs3).
    assert (Hres : replay feed (callbacks c) c
                   = (c3, es ++ [Send (TicksSubscribe sym (S (reqId c')));
                                 Log (LogReconnectionFailed reason)],
                      Aborted reason)).
    { rewrite Heq at 1. by rewrite Hrun, Hstep. }
    rewrite Hres. simpl. rewrite requested_app, Hreq. simpl.
    split; [done|]. split; [done|]. split.
    + apply elem_of_app. right. apply elem_of_cons. right.
      apply elem_of_cons. by left.
    + intros s Hs.
      assert (Hne : s <> sym) by (intros ->; done).
      assert (Hno : s ∉ accepted.*1).
      { intros Hin. apply (Hdisj s Hin). apply elem_of_cons. by right. }
      split.
      * rewrite elem_of_app, list_elem_of_singleton. by intros [?|?].
      * rewrite Hs3, lookup_delete_ne by done. by apply Hout.
  - intros Hok.
    destruct (replay_prefix feed (callbacks c) [] c) as
      (c' & es & Hrun & _ & _ & Hreq & _ & Hin).
    { done. }
    { done. }
    rewrite app_nil_r in Hrun. rewrite Hrun. simpl.
    rewrite app_nil_r. done.
Qed.

End ReplayClaim.

(** ** Where the specification and the code part ways *)

Section Divergences.

Import Client.

(** C2 as stated fails: after [disconnect()] on the connected sample client,
    the close event of the socket sets a reconnect timer. *)
Lemma disconnect_reconnects :
  ~ (forall c c' es,
       dispatch EvClose (disconnect c).1 = Some (c', es) ->
       timeouts ((disconnect c).2 ++ es) = []).
Proof.
  intros H.
  specialize (H Sample.client _ _ eq_refl). vm_compute in H. discriminate.
Qed.

(** The same from a fresh client: connect, handshake completed, then
    [disconnect()] and the socket's close event. The last step sets a timer
    of 2 seconds. *)
Example shutdown_trace :
  match dispatch (EvOpen 7%nat) (connect Client.new).1 with
  | Some (c1, _) =>
      connected c1 = true
      /\ match dispatch EvClose (disconnect c1).1 with
         | Some (c2, es) => timeouts es = [2000] /\ reconnectAttempts c2 = 1%nat
         | None => False
         end
  | None => False
  end.
Proof. vm_compute. done. Qed.

(** C3 as stated fails: with the first request refused and every other
    accepted, the second registered symbol is never requested. *)
Lemma replay_aborts_on_failure :
  ~ (forall feed c,
       NoDup (callbacks c).*1 ->
       (forall r, is_Some (feed r)) ->
       forall s, s ∈ (callbacks c).*1 ->
                 s ∈ requested (resubscribeAll feed c).1.2).
Proof.
  intros H.
  assert (Hnd : NoDup (callbacks Sample.client).*1).
  { simpl. apply NoDup_cons. split; [|apply NoDup_singleton].
    by intros [=]%list_elem_of_singleton. }
  assert (Hans : forall r, is_Some (Sample.feedRefusingFirst r)).
  { intros r. unfold Sample.feedRefusingFirst. destruct (r =? 3)%nat; by eexists. }
  specialize (H Sample.feedRefusingFirst Sample.client Hnd Hans "R_25"%string).
  assert (Hin : "R_25"%string ∈ (callbacks Sample.client).*1).
  { simpl. apply elem_of_cons. right. apply elem_of_cons. by left. }
  specialize (H Hin). vm_compute in H.
  apply list_elem_of_singleton in H. discriminate.
Qed.

(** C4 as stated fails: the delay is computed from the counter after its
    increment, so the first delay is 2 seconds, not 1. *)
Lemma first_delay_is_not_1s :
  ~ (forall c,
       (reconnectAttempts c < maxReconnectAttempts c)%nat ->
       timeouts (onClose c).2
       = [Z.min (1000 * 2 ^ Z.of_nat (reconnectAttempts c)) 30000]).
Proof.
  intros H. specialize (H Sample.client). simpl in H.
  specialize (H ltac:(lia)). vm_compute in H. discriminate.
Qed.

(** C7 as stated fails: an input that matches nothing comes back as it was
    typed, not uppercased. *)
Lemma resolveSymbol_keeps_case :
  ~ (forall input c,
       map_get (toUpperCase input) (symbolAliases c) = None ->
       (forall x, x ∈ activeSymbols c -> toUpperCase x <> toUpperCase input) ->
       resolveSymbol input c = toUpperCase input).
Proof.
  intros H. specialize (H "foo"%string Client.new eq_refl).
  simpl in H. specialize (H ltac:(by intros x ?%elem_of_nil)).
  vm_compute in H. discriminate.
Qed.

End Divergences.

(** ** The theorems at concrete states *)

Section Instances.

Import Alerts Client App.

Lemma sample_registry_NoDup : NoDup (callbacks Sample.client).*1.
Proof.
  simpl. apply NoDup_cons. split; [|apply NoDup_singleton].
  by intros [=]%list_elem_of_singleton.
Qed.

Lemma above_rule_fires_witness :
  alerts (Sample.manager "above") !! 0%nat = Some (Sample.rule "above")
  /\ exists f1 f2,
       (feedTicks "R_10" [(100 - 1)%Q; (100 + 1)%Q]
                  (Sample.client, Sample.manager "above")).1 = [f1; f2]
       /\ timesFired 0 f1 = 0%nat /\ timesFired 0 f2 = 1%nat.
Proof.
  split; [reflexivity|].
  destruct (above_rule_fires Sample.client (Sample.manager "above") 0
              (Sample.rule "above") eq_refl eq_refl eq_refl eq_refl) as [_ H].
  destruct (H eq_refl eq_refl (ex_intro _ 1%nat eq_refl))
    as [(f1 & f2 & H1 & H2 & H3 & _) _].
  exists f1, f2. repeat split; assumption.
Defined.

Lemma crosses_rule_fires_witness :
  alerts (Sample.manager "crosses") !! 0%nat = Some (Sample.rule "crosses")
  /\ exists f1 f2,
       (feedTicks "R_10" [(100 + 1)%Q; (100 + 1)%Q]
                  (Sample.client, Sample.manager "crosses")).1 = [f1; f2]
       /\ timesFired 0 f1 = 0%nat /\ timesFired 0 f2 = 0%nat.
Proof.
  split; [reflexivity|].
  destruct (crosses_rule_fires Sample.client (Sample.manager "crosses") 0
              (Sample.rule "crosses") eq_refl eq_refl eq_refl eq_refl) as [_ H].
  destruct (H eq_refl (ex_intro _ 1%nat eq_refl))
    as [(f1 & f2 & H1 & H2 & _ & H3 & _) _].
  exists f1, f2. repeat split; try assumption. apply H3. reflexivity.
Defined.

Lemma removeAlert_result_witness :
  removeAlert 5 (Sample.manager "above") = (false, Sample.manager "above")
  /\ (removeAlert 1 (Sample.manager "above")).1 = true.
Proof.
  split.
  - apply (removeAlert_result 5 (Sample.manager "above")).
    intros a Ha. apply list_elem_of_singleton in Ha. rewrite Ha. discriminate.
  - apply (removeAlert_result 1 (Sample.manager "above")).
    exists (Sample.rule "above"). split; [|reflexivity].
    apply list_elem_of_singleton. reflexivity.
Defined.

Lemma tick_updates_sample_witness :
  truthy "R_10" = true
  /\ prices (_handleMessage (tickMessage "R_10" 5) Sample.client).1 !! "R_10"%string
     = Some {| previous := 5; current := 5 |}.
Proof.
  split; [reflexivity|].
  destruct (tick_updates_sample Sample.client "R_10" 5 eq_refl) as [H _].
  apply H. reflexivity.
Defined.

Lemma subscribe_again_witness :
  is_Some (subscriptions Sample.client !! "R_10"%string)
  /\ sentFrames (subscribe "R_10" 9%nat Sample.client).1.2 = []
  /\ map_get "R_10" (callbacks (subscribe "R_10" 9%nat Sample.client).1.1) = Some 9%nat.
Proof.
  assert (H : is_Some (subscriptions Sample.client !! "R_10"%string))
    by (exists "sub-1"%string; reflexivity).
  split; [exact H|].
  destruct (subscribe_again Sample.client "R_10" 9%nat H)
    as (_ & H1 & _ & _ & H2 & _).
  split; assumption.
Defined.

Lemma alias_round_trip_witness :
  getAlias "cryBTCUSD" Sample.client = Some "BTC"%string
  /\ resolveSymbol "BTC" Sample.client = "cryBTCUSD"%string.
Proof.
  split; [reflexivity|].
  apply (alias_round_trip Sample.client "cryBTCUSD" "BTC" eq_refl eq_refl).
Defined.

Lemma resolveSymbol_cases_witness :
  Forall (fun e => truthy e.2 = true) (symbolAliases Sample.client)
  /\ resolveSymbol "btc" Sample.client = "cryBTCUSD"%string
  /\ resolveSymbol "r_10" Sample.client = "R_10"%string
  /\ resolveSymbol "foo" Sample.client = "foo"%string.
Proof.
  assert (H : Forall (fun e => truthy e.2 = true) (symbolAliases Sample.client))
    by (repeat constructor).
  split; [exact H|].
  split; [|split].
  - apply (resolveSymbol_cases Sample.client "btc" H). reflexivity.
  - apply (proj1 (proj2 (resolveSymbol_cases Sample.client "r_10" H))
             [] "R_10"%string ["R_25"; "cryBTCUSD"]%string);
      [reflexivity | reflexivity | | reflexivity].
    intros x Hx. apply elem_of_nil in Hx. destruct Hx.
  - apply (resolveSymbol_cases Sample.client "foo" H); [reflexivity|].
    intros x Hx Heq. simpl in Hx.
    repeat (apply elem_of_cons in Hx as [->|Hx]; [discriminate Heq|]).
    apply elem_of_nil in Hx. destruct Hx.
Defined.

Lemma reconnect_backoff_witness :
  (reconnectAttempts Sample.client < maxReconnectAttempts Sample.client)%nat
  /\ timeouts (onClose Sample.client).2 = [2000].
Proof.
  assert (H : (reconnectAttempts Sample.client < maxReconnectAttempts Sample.client)%nat)
    by (simpl; lia).
  split; [exact H|].
  apply (reconnect_backoff Sample.client H). reflexivity.
Defined.

Lemma disconnect_then_close_witness :
  ws Sample.client = Some OPEN
  /\ ClearInterval 7%nat ∈ (disconnect Sample.client).2
  /\ timeouts (disconnect Sample.client).2 = []
  /\ timeouts (onClose (set_ws (Some CLOSED) (disconnect Sample.client).1)).2
     = [backoff 1].
Proof.
  split; [reflexivity|].
  destruct (disconnect_then_close Sample.client OPEN eq_refl ltac:(discriminate))
    as (H1 & _ & _ & H2 & _ & H3 & _).
  split; [apply H1; reflexivity|]. split; [exact H2|].
  apply H3. simpl. lia.
Defined.

Lemma replay_stops_at_first_failure_witness :
  NoDup (callbacks Sample.client).*1
  /\ (resubscribeAll Sample.feedRefusingFirst Sample.client).2
     = Aborted "MarketIsClosed"
  /\ requested (resubscribeAll Sample.feedRefusingFirst Sample.client).1.2
     = ["R_10"%string]
  /\ (resubscribeAll Sample.feedAccepting Sample.client).2 = Completed
  /\ requested (resubscribeAll Sample.feedAccepting Sample.client).1.2
     = ["R_10"; "R_25"]%string.
Proof.
  split; [exact sample_registry_NoDup|].
  destruct (replay_stops_at_first_failure Sample.feedRefusingFirst Sample.client
              sample_registry_NoDup) as (_ & _ & H & _).
  destruct (H [] "R_10"%string 1%nat [("R_25"%string, 2%nat)] "MarketIsClosed"%string
              eq_refl) as (H1 & H2 & _).
  { intros k Hk. simpl in Hk. lia. }
  { reflexivity. }
  split; [exact H1|]. split; [exact H2|].
  destruct (replay_stops_at_first_failure Sample.feedAccepting Sample.client
              sample_registry_NoDup) as (_ & _ & _ & H').
  destruct H' as (H3 & H4 & _).
  { intros k Hk. unfold verdict, Sample.feedAccepting, Sample.accepted. simpl.
    rewrite bool_decide_eq_true_2; reflexivity. }
  split; [exact H3|exact H4].
Defined.

End Instances.

(** * Further properties of the alert manager *)

Section ManagerEdits.

Import Alerts.

Lemma max_ids_ge (l : list Alert) a : a ∈ l -> id a <= foldr Z.max 0 (id <$> l).
Proof.
  induction l as [|b l IH]; csimpl.
  - by intros ?%elem_of_nil.
  - intros [->|H]%elem_of_cons; [lia|]. apply IH in H. lia.
Qed.

Lemma max_ids_nonneg (l : list Alert) : 0 <= foldr Z.max 0 (id <$> l).
Proof. induction l as [|b l IH]; csimpl; lia. Qed.

Lemma list_find_first i l k a :
  list_find (fun a => id a = i) l = Some (k, a) <-> firstWithId i l k a.
Proof.
  unfold firstWithId. rewrite list_find_Some. split.
  - intros (Hl & Hi & Hj). repeat split; try done. intros j b Hlt Hb. by eapply Hj.
  - intros (Hl & Hi & Hj). repeat split; try done. intros j b Hb Hlt. by eapply Hj.
Qed.

Lemma firstWithId_exists i l :
  (exists a, a ∈ l /\ id a = i) -> exists k a, firstWithId i l k a.
Proof.
  intros (a & Ha & Hi).
  destruct (list_find (fun a => id a = i) l) as [[k b]|] eqn:E.
  - exists k, b. by apply list_find_first.
  - apply list_find_None in E. rewrite Forall_forall in E. by destruct (E a Ha).
Qed.

Lemma renumber_lookup (l : list Alert) j :
  imap (fun index alert => set_id (Z.of_nat index + 1) alert) l !! j
  = set_id (Z.of_nat j + 1) <$> l !! j.
Proof. by rewrite list_lookup_imap. Qed.


(** X2. When some alert has the id, [removeAlert(id)] removes the first such
    alert and renumbers the others: the result holds the remaining alerts in
    their order, the one at position [j] carrying the id [j+1] whatever its
    id was, all other fields unchanged; the array is one shorter and is
    saved. *)
Theorem removeAlert_renumbers (i : Z) (m : AlertManager) :
  (exists a, a ∈ alerts m /\ id a = i) ->
  let r := removeAlert i m in
  r.1 = true
  /\ exists k a,
       firstWithId i (alerts m) k a
       /\ (forall j, alerts r.2 !! j
                     = set_id (Z.of_nat j + 1) <$> delete k (alerts m) !! j)
       /\ S (length (alerts r.2)) = length (alerts m)
       /\ storage r.2 = alerts r.2 :: storage m.
Proof.
  intros Hex. cbv zeta. destruct (firstWithId_exists i (alerts m) Hex) as (k & a & Hk).
  pose proof Hk as Hf. apply list_find_first in Hf.
  unfold removeAlert. rewrite Hf. simpl. split; [done|].
  exists k, a. split; [done|]. split; [intros j; apply renumber_lookup|].
  split; [|done].
  destruct Hk as [Hk _].
  rewrite length_imap, length_delete by by eexists.
  apply lookup_lt_Some in Hk. lia.
Qed.

Lemma filter_split_length {A : Type} (f : A -> bool) (l : list A) :
  length l = (length (List.filter f l) + length (List.filter (fun x => negb (f x)) l))%nat.
Proof.
  induction l as [|x l IH]; simpl; [done|].
  destruct (f x); simpl; lia.
Qed.

(** X3. [clearTriggered()] returns the number of alerts that are triggered
    and not repeating. If there is none the manager is left as it is (nothing
    is saved). Otherwise exactly these alerts are removed, the others keep
    their order and are renumbered from 1, and the result is saved. In both
    cases no triggered, non-repeating alert is left. *)
Theorem clearTriggered_result (m : AlertManager) :
  let r := clearTriggered m in
  r.1 = length (List.filter (fun a => triggered a && negb (repeat a)) (alerts m))
  /\ length (alerts m) = (r.1 + length (alerts r.2))%nat
  /\ (r.1 = 0%nat -> r.2 = m)
  /\ ((0 < r.1)%nat ->
      (forall j, alerts r.2 !! j
                 = set_id (Z.of_nat j + 1)
                   <$> List.filter (fun a => negb (triggered a && negb (repeat a)))
                                   (alerts m) !! j)
      /\ storage r.2 = alerts r.2 :: storage m)
  /\ (forall a, a ∈ alerts r.2 -> triggered a && negb (repeat a) = false).
Proof.
  cbv zeta. unfold clearTriggered.
  set (gone := fun a => triggered a && negb (repeat a)).
  assert (Hkeep : List.filter (fun a => negb (triggered a) || repeat a) (alerts m)
                  = List.filter (fun a => negb (gone a)) (alerts m)).
  { apply filter_ext. intros a. unfold gone.
    by destruct (triggered a), (repeat a). }
  rewrite Hkeep.
  pose proof (filter_split_length gone (alerts m)) as Hlen.
  destruct (Nat.ltb_spec 0 (length (List.filter gone (alerts m)))) as [Hpos|Hzero]; simpl.
  - split; [done|]. split; [by rewrite length_imap|].
    split; [lia|]. split.
    + intros _. split; [intros j; apply renumber_lookup|done].
    + intros a Ha. apply list_elem_of_lookup in Ha as [j Hj].
      rewrite renumber_lookup in Hj.
      destruct (List.filter _ (alerts m) !! j) as [b|] eqn:Hb; [|done].
      injection Hj as <-. simpl.
      apply list_elem_of_lookup_2, list_elem_of_In, filter_In in Hb as [_ Hb].
      by apply negb_true_iff in Hb.
  - split; [done|].
    assert (Hnil : List.filter gone (alerts m) = []).
    { destruct (List.filter gone (alerts m)); [done|simpl in Hzero; lia]. }
    split; [rewrite Hnil in Hlen |- *; simpl in *; lia|].
    split; [done|]. split; [lia|].
    intros a Ha. destruct (gone a) eqn:E; [|done].
    assert (In a (List.filter gone (alerts m)))
      by (apply filter_In; split; [by apply list_elem_of_In|done]).
    rewrite Hnil in H. destruct H.
Qed.

End ManagerEdits.

Section CheckFrame.

Import Price Alerts.

Lemma fires_skipped sym cur prev a : skipped a sym = true -> fires sym cur prev a = false.
Proof. unfold fires. by intros ->. Qed.

Lemma skipped_cases a sym :
  enabled a = false \/ symbol a <> sym \/ (triggered a = true /\ repeat a = false) ->
  skipped a sym = true.
Proof.
  unfold skipped. intros [->|[Hs|[-> ->]]]; simpl; try done.
  - apply String.eqb_neq in Hs. rewrite Hs. simpl. by rewrite orb_true_r.
  - by rewrite orb_true_r.
Qed.

Lemma conditionMet_unknown a cur prev :
  condition a <> "above"%string -> condition a <> "below"%string ->
  condition a <> "crosses"%string -> conditionMet a cur prev = false.
Proof.
  intros H1%String.eqb_neq H2%String.eqb_neq H3%String.eqb_neq.
  unfold conditionMet. by rewrite H1, H2, H3.
Qed.

(** X4. [checkAlerts] changes nothing but trigger flags, and only from false
    to true: the array keeps its length, every alert keeps its position and
    all its other fields, a triggered alert stays triggered, and an alert
    whose flag changed is among the returned ones. *)
Theorem checkAlerts_frame (sym : string) (cur prev : Q) (m : AlertManager)
    (k : nat) (a : Alert) :
  alerts m !! k = Some a ->
  let r := checkAlerts sym cur prev m in
  length (alerts r.2) = length (alerts m)
  /\ exists a', alerts r.2 !! k = Some a'
       /\ set_triggered true a' = set_triggered true a
       /\ (triggered a = true -> triggered a' = true)
       /\ (triggered a' <> triggered a -> k ∈ r.1).
Proof.
  intros Hk. cbv zeta.
  destruct (checkAlerts_elem sym cur prev m k a Hk) as [Hin Hal].
  split; [by rewrite checkAlerts_alerts, length_fmap|].
  exists (after sym cur prev a). split; [done|]. unfold after.
  destruct (fires sym cur prev a) eqn:E.
  - repeat split; try done. intros _. by apply Hin.
  - by repeat split.
Qed.

(** X5. An alert that is disabled, or set on another symbol, or triggered
    and not repeating, or whose condition is none of above, below and
    crosses, is never returned by [checkAlerts] and is left exactly as it is,
    whatever the prices. *)
Theorem checkAlerts_untouched (sym : string) (cur prev : Q) (m : AlertManager)
    (k : nat) (a : Alert) :
  alerts m !! k = Some a ->
  enabled a = false
  \/ symbol a <> sym
  \/ (triggered a = true /\ repeat a = false)
  \/ (condition a <> "above"%string /\ condition a <> "below"%string
      /\ condition a <> "crosses"%string) ->
  (k ∉ (checkAlerts sym cur prev m).1)
  /\ alerts (checkAlerts sym cur prev m).2 !! k = Some a.
Proof.
  intros Hk Hc.
  destruct (checkAlerts_elem sym cur prev m k a Hk) as [Hin Hal].
  assert (Hf : fires sym cur prev a = false).
  { destruct Hc as [H|[H|[H|(H1 & H2 & H3)]]].
    - apply fires_skipped, skipped_cases. by left.
    - apply fires_skipped, skipped_cases. right. by left.
    - apply fires_skipped, skipped_cases. right. by right.
    - unfold fires. rewrite conditionMet_unknown by done. apply andb_false_r. }
  split; [rewrite Hin; congruence|]. by rewrite Hal, after_idle.
Qed.

(** X6. Over any number of calls of [checkAlerts], with any symbols and
    prices, a non-repeating alert is returned at most once in all, and not at
    all if it was triggered at the start. *)
Theorem non_repeating_fires_once (calls : list (string * Q * Q))
    (m : AlertManager) (k : nat) (a : Alert) :
  alerts m !! k = Some a ->
  repeat a = false ->
  (sum_list (App.timesFired k <$> (checkEach calls m).1) <= 1)%nat
  /\ (triggered a = true ->
      sum_list (App.timesFired k <$> (checkEach calls m).1) = 0%nat).
Proof.
  revert m a. induction calls as [|[[sym cur] prev] rest IH]; intros m a Hk Hr.
  - simpl. split; [lia|done].
  - simpl.
    destruct (checkAlerts_elem sym cur prev m k a Hk) as [Hin Hal].
    pose proof (checkAlerts_NoDup sym cur prev m) as Hnd.
    destruct (checkAlerts sym cur prev m) as [fired m1]. simpl in Hin, Hal, Hnd.
    specialize (IH m1 (after sym cur prev a) Hal).
    destruct (checkEach rest m1) as [fs m2]. cbn [fst] in IH |- *.
    rewrite fmap_cons. cbn [sum_list_with].
    set (later := sum_list (App.timesFired k <$> fs)) in *.
    change (Datatypes.id (App.timesFired k fired)) with (App.timesFired k fired).
    destruct (fires sym cur prev a) eqn:E.
    + rewrite (timesFired_in k fired Hnd) by by apply Hin.
      rewrite after_fires in IH by done.
      destruct (IH Hr) as [_ H0]. rewrite (H0 eq_refl). split; [lia|].
      intros Ht. unfold fires, skipped in E. rewrite Ht, Hr in E. simpl in E.
      by rewrite orb_true_r in E.
    + rewrite (timesFired_notin k fired) by (rewrite Hin; congruence).
      rewrite after_idle in IH by done.
      destruct (IH Hr) as [H1 H0]. split; [lia|]. intros Ht. by rewrite H0.
Qed.

End CheckFrame.

Section Persistence.

Import Alerts.

Variables (sym : string) (cur prev : Q).

Lemma fires_alt a :
  fires sym cur prev a = (if skipped a sym then false else conditionMet a cur prev).
Proof. unfold fires. by destruct (skipped a sym). Qed.

Lemma checkLoop_storage_same todo : forall visited fired st,
  (forall a, a ∈ todo -> fires sym cur prev a = true -> repeat a = true) ->
  (checkLoop sym cur prev visited todo fired st).2 = st.
Proof.
  induction todo as [|a rest IH]; intros visited fired st Hrep; simpl; [done|].
  assert (Hrest : forall b, b ∈ rest -> fires sym cur prev b = true -> repeat b = true).
  { intros b Hb. apply Hrep. apply elem_of_cons. by right. }
  pose proof (Hrep a ltac:(apply elem_of_cons; by left)) as Ha.
  rewrite fires_alt in Ha.
  destruct (skipped a sym); [by apply IH|].
  destruct (conditionMet a cur prev); [|by apply IH].
  rewrite (Ha eq_refl). simpl. by apply IH.
Qed.

Lemma checkLoop_head_kept todo : forall visited fired st j b,
  visited !! j = Some b ->
  (exists snap rest, st = snap :: rest /\ snap !! j = Some b) ->
  exists snap rest,
    (checkLoop sym cur prev visited todo fired st).2 = snap :: rest
    /\ snap !! j = Some b.
Proof.
  induction todo as [|a rest IH]; intros visited fired st j b Hj Hst; simpl; [done|].
  destruct (skipped a sym).
  { apply IH; [|done]. by apply lookup_app_l_Some. }
  destruct (conditionMet a cur prev).
  - apply IH; [by apply lookup_app_l_Some|].
    destruct (repeat a); simpl; [done|].
    eexists _, _. split; [done|]. by apply lookup_app_l_Some.
  - apply IH; [|done]. by apply lookup_app_l_Some.
Qed.

Lemma checkLoop_saved todo : forall visited fired st k a,
  todo !! k = Some a ->
  fires sym cur prev a = true ->
  repeat a = false ->
  exists snap rest,
    (checkLoop sym cur prev visited todo fired st).2 = snap :: rest
    /\ snap !! (length visited + k)%nat = Some (set_triggered true a).
Proof.
  induction todo as [|b rest IH]; intros visited fired st k a Hk Hf Hr; [done|].
  destruct k as [|k]; simpl in Hk.
  - injection Hk as ->. simpl. rewrite fires_alt in Hf.
    destruct (skipped a sym); [done|]. rewrite Hf, Hr. simpl.
    rewrite Nat.add_0_r. apply checkLoop_head_kept.
    + by rewrite lookup_app_r, Nat.sub_diag.
    + eexists _, _. split; [done|]. by rewrite lookup_app_r, Nat.sub_diag.
  - simpl.
    replace (length visited + S k)%nat with (length (visited ++ [b]) + k)%nat
      by (rewrite length_app; simpl; lia).
    destruct (skipped b sym); [by apply IH|].
    destruct (conditionMet b cur prev); [|by apply IH].
    replace (length (visited ++ [b])) with (length (visited ++ [set_triggered true b]))
      by (by rewrite !length_app).
    by apply IH.
Qed.

(** X7. What [checkAlerts] saves. If it returns no alert, the manager is
    exactly as before and nothing is saved. If every returned alert is a
    repeating one, the trigger flags change in memory but nothing is saved.
    Every returned non-repeating alert is recorded as triggered in the newest
    saved snapshot. *)
Theorem checkAlerts_persistence (m : AlertManager) :
  let r := checkAlerts sym cur prev m in
  (r.1 = [] -> r.2 = m)
  /\ ((forall k a, alerts m !! k = Some a -> k ∈ r.1 -> repeat a = true) ->
      storage r.2 = storage m)
  /\ (forall k a, alerts m !! k = Some a -> k ∈ r.1 -> repeat a = false ->
        exists snap rest,
          storage r.2 = snap :: rest /\ snap !! k = Some (set_triggered true a)).
Proof.
  cbv zeta.
  assert (Hst : storage (checkAlerts sym cur prev m).2
                = (checkLoop sym cur prev [] (alerts m) [] (storage m)).2).
  { unfold checkAlerts. by destruct (checkLoop _ _ _ _ _ _ _) as [[? ?] ?]. }
  assert (Hrep : (forall k a, alerts m !! k = Some a ->
                    k ∈ (checkAlerts sym cur prev m).1 -> repeat a = true) ->
                 storage (checkAlerts sym cur prev m).2 = storage m).
  { intros H. rewrite Hst. apply checkLoop_storage_same.
    intros a [k Hk]%list_elem_of_lookup Hf. apply (H k a Hk).
    by apply (checkAlerts_elem sym cur prev m k a Hk). }
  split; [|split; [exact Hrep|]].
  - intros Hnil.
    assert (Hno : forall k a, alerts m !! k = Some a -> fires sym cur prev a = false).
    { intros k a Hk. apply not_true_iff_false. intros Hf.
      apply (checkAlerts_elem sym cur prev m k a Hk) in Hf.
      rewrite Hnil in Hf. by apply elem_of_nil in Hf. }
    assert (Hal : alerts (checkAlerts sym cur prev m).2 = alerts m).
    { rewrite checkAlerts_alerts. apply list_eq. intros k.
      rewrite list_lookup_fmap. destruct (alerts m !! k) as [a|] eqn:Hk; [|done].
      simpl. by rewrite after_idle by by eapply Hno. }
    assert (Hs : storage (checkAlerts sym cur prev m).2 = storage m).
    { apply Hrep. intros k a Hk Hin. rewrite Hnil in Hin. by apply elem_of_nil in Hin. }
    revert Hal Hs. generalize (checkAlerts sym cur prev m).2.
    intros [al st]. destruct m as [al0 st0]. simpl. by intros -> ->.
  - intros k a Hk Hin Hr. rewrite Hst.
    apply (checkLoop_saved (alerts m) [] [] (storage m) k a Hk); [|done].
    by apply (checkAlerts_elem sym cur prev m k a Hk).
Qed.

End Persistence.

Section MoreConditions.

Import Price Alerts Client App.

Ltac price_hyps :=
  repeat match goal with
  | H : geb _ _ = true |- _ => apply geb_true in H
  | H : geb _ _ = false |- _ => apply geb_false in H
  | H : ltb _ _ = true |- _ => apply ltb_true in H
  | H : ltb _ _ = false |- _ => apply ltb_false in H
  | H : leb _ _ = true |- _ => apply leb_true in H
  | H : leb _ _ = false |- _ => apply leb_false in H
  end.

Lemma fires_below a cur prev :
  condition a = "below"%string ->
  enabled a = true ->
  triggered a && negb (repeat a) = false ->
  fires (Alerts.symbol a) cur prev a = true
  <-> ((cur <= price a)%Q /\ (price a < prev)%Q)
      \/ ((cur <= price a)%Q /\ triggered a = false).
Proof.
  intros Hc He Ht. unfold fires. rewrite not_skipped by done.
  unfold conditionMet. rewrite Hc. simpl. unfold gtb.
  destruct (leb cur (price a)) eqn:G, (Qle_bool prev (price a)) eqn:L,
    (triggered a) eqn:T; simpl;
    try apply Qle_bool_iff in L;
    try (apply not_true_iff_false in L; rewrite Qle_bool_iff in L);
    price_hyps;
    (split; [intros; try discriminate;
             first [left; split; lra | right; split; [lra|done]]
            | intros [[? ?]|[? ?]]; try done; try lra]).
Qed.

(** One tick, followed for the alert at position [i]. *)
Lemma onTick_track sym p c m i a :
  truthy sym = true ->
  is_Some (map_get sym (callbacks c)) ->
  alerts m !! i = Some a ->
  exists f c' m',
    onTick sym p (c, m) = (f, (c', m'))
    /\ is_Some (map_get sym (callbacks c'))
    /\ (forall q, previousFor sym q c' = p)
    /\ alerts m' !! i = Some (after sym p (previousFor sym p c) a)
    /\ timesFired i f = (if fires sym p (previousFor sym p c) a then 1 else 0)%nat.
Proof.
  intros Ht Hcb Hi.
  destruct (onTick_elem sym p c m i a Ht Hcb Hi) as [H1 H0].
  pose proof (onTick_client sym p c m Ht Hcb) as Hc.
  destruct (onTick sym p (c, m)) as [f [c' m']]. simpl in *.
  exists f, c', m'. split; [done|]. subst c'. split; [done|].
  split; [intros q; apply previousFor_after|].
  destruct (fires sym p (previousFor sym p c) a) eqn:E.
  - destruct (H1 eq_refl) as [-> ->]. by rewrite after_fires.
  - destruct (H0 eq_refl) as [-> ->]. by rewrite after_idle.
Qed.

Lemma feedTicks_cons sym p rest st :
  feedTicks sym (p :: rest) st
  = ((onTick sym p st).1 :: (feedTicks sym rest (onTick sym p st).2).1,
     (feedTicks sym rest (onTick sym p st).2).2).
Proof.
  simpl. destruct (onTick sym p st) as [f st1]. simpl.
  by destruct (feedTicks sym rest st1).
Qed.

(** X8. An enabled [below] alert that the loop does not skip is returned by
    [checkAlerts] for its symbol exactly when the current price is at or
    below the target and either the previous price was above it or the alert
    has not triggered yet; when returned it is marked triggered. For an alert
    not yet triggered whose symbol has a callback, the ticks [T+1, T-1] fire
    it at the second tick only. *)
Theorem below_rule_fires (c : DerivClient) (m : AlertManager) (i : nat) (a : Alert) :
  alerts m !! i = Some a ->
  condition a = "below"%string ->
  enabled a = true ->
  triggered a && negb (repeat a) = false ->
  (forall cur prev : Q,
     let r := checkAlerts (Alerts.symbol a) cur prev m in
     (i ∈ r.1 <-> ((cur <= price a)%Q /\ (price a < prev)%Q)
                  \/ ((cur <= price a)%Q /\ triggered a = false))
     /\ (i ∈ r.1 -> alerts r.2 !! i = Some (set_triggered true a)))
  /\ (triggered a = false ->
      truthy (Alerts.symbol a) = true ->
      is_Some (map_get (Alerts.symbol a) (callbacks c)) ->
      timesFired i <$> (feedTicks (Alerts.symbol a)
                          [(price a + 1)%Q; (price a - 1)%Q] (c, m)).1
      = [0; 1]%nat).
Proof.
  intros Hi Hc He Hs. split.
  - intros cur prev r. subst r.
    destruct (checkAlerts_elem (Alerts.symbol a) cur prev m i a Hi) as [Hin Hal].
    rewrite Hin, Hal. split; [by apply fires_below|].
    intros Hf. by rewrite after_fires.
  - intros Ht Hsym Hcb. set (sym := Alerts.symbol a) in *.
    rewrite feedTicks_cons.
    destruct (onTick_track sym (price a + 1) c m i a Hsym Hcb Hi)
      as (f1 & c1 & m1 & -> & Hcb1 & Hp1 & Hi1 & Hf1).
    assert (E1 : fires sym (price a + 1) (previousFor sym (price a + 1) c) a = false).
    { apply not_true_iff_false. unfold sym. rewrite fires_below by done.
      intros [[? _]|[? _]]; lra. }
    rewrite E1 in Hf1. rewrite after_idle in Hi1 by done.
    cbn [fst snd]. rewrite feedTicks_cons.
    destruct (onTick_track sym (price a - 1) c1 m1 i a Hsym Hcb1 Hi1)
      as (f2 & c2 & m2 & -> & _ & _ & _ & Hf2).
    rewrite Hp1 in Hf2.
    assert (E2 : fires sym (price a - 1) (price a + 1) a = true).
    { unfold sym. rewrite fires_below by done. left. split; lra. }
    rewrite E2 in Hf2. simpl. by rewrite Hf1, Hf2.
Qed.

(** X9. A repeating [above] alert fires again on every upward crossing and
    not while the price stays above the target: with a callback registered
    for its symbol, the ticks [T-1, T+1, T+2, T-1, T+1] fire it at the second
    and at the fifth tick only, whether or not it had triggered before. *)
Theorem repeating_rule_refires (c : DerivClient) (m : AlertManager) (i : nat)
    (a : Alert) :
  alerts m !! i = Some a ->
  condition a = "above"%string ->
  enabled a = true ->
  repeat a = true ->
  truthy (Alerts.symbol a) = true ->
  is_Some (map_get (Alerts.symbol a) (callbacks c)) ->
  timesFired i <$> (feedTicks (Alerts.symbol a)
                      [(price a - 1)%Q; (price a + 1)%Q; (price a + 2)%Q;
                       (price a - 1)%Q; (price a + 1)%Q] (c, m)).1
  = [0; 1; 0; 0; 1]%nat.
Proof.
  intros Hi Hc He Hr Hsym Hcb. set (sym := Alerts.symbol a) in *.
  assert (Hns : triggered a && negb (repeat a) = false)
    by (rewrite Hr; apply andb_false_r).
  set (a' := set_triggered true a).
  assert (Hlow : forall b q, b = a \/ b = a' -> fires sym (price a - 1) q b = false).
  { intros b q Hb. apply not_true_iff_false.
    destruct Hb as [->| ->]; unfold sym;
      [rewrite fires_above by done
      |change (Alerts.symbol a) with (Alerts.symbol a');
       rewrite fires_above by (simpl; rewrite ?Hr; done)];
      simpl; intros [[? _]|[? _]]; lra. }
  assert (Hup : forall b, b = a \/ b = a' ->
                          fires sym (price a + 1) (price a - 1) b = true).
  { intros b Hb.
    destruct Hb as [->| ->]; unfold sym;
      [rewrite fires_above by done
      |change (Alerts.symbol a) with (Alerts.symbol a');
       rewrite fires_above by (simpl; rewrite ?Hr; done)];
      simpl; left; split; lra. }
  assert (Hstay : fires sym (price a + 2) (price a + 1) a' = false).
  { apply not_true_iff_false. unfold sym.
    change (Alerts.symbol a) with (Alerts.symbol a').
    rewrite fires_above by (simpl; rewrite ?Hr; done).
    simpl. intros [[_ ?]|[_ ?]]; [lra|done]. }
  rewrite feedTicks_cons.
  destruct (onTick_track sym (price a - 1) c m i a Hsym Hcb Hi)
    as (f1 & c1 & m1 & -> & Hcb1 & Hp1 & Hi1 & Hf1).
  rewrite Hlow in Hf1 by by left. rewrite after_idle in Hi1 by (apply Hlow; by left).
  cbn [fst snd]. rewrite feedTicks_cons.
  destruct (onTick_track sym (price a + 1) c1 m1 i a Hsym Hcb1 Hi1)
    as (f2 & c2 & m2 & -> & Hcb2 & Hp2 & Hi2 & Hf2).
  rewrite Hp1 in Hf2, Hi2. rewrite Hup in Hf2 by by left.
  rewrite after_fires in Hi2 by (apply Hup; by left). fold a' in Hi2.
  cbn [fst snd]. rewrite feedTicks_cons.
  destruct (onTick_track sym (price a + 2) c2 m2 i a' Hsym Hcb2 Hi2)
    as (f3 & c3 & m3 & -> & Hcb3 & Hp3 & Hi3 & Hf3).
  rewrite Hp2 in Hf3, Hi3. rewrite Hstay in Hf3. rewrite after_idle in Hi3 by done.
  cbn [fst snd]. rewrite feedTicks_cons.
  destruct (onTick_track sym (price a - 1) c3 m3 i a' Hsym Hcb3 Hi3)
    as (f4 & c4 & m4 & -> & Hcb4 & Hp4 & Hi4 & Hf4).
  rewrite Hlow in Hf4 by by right. rewrite after_idle in Hi4 by (apply Hlow; by right).
  cbn [fst snd]. rewrite feedTicks_cons.
  destruct (onTick_track sym (price a + 1) c4 m4 i a' Hsym Hcb4 Hi4)
    as (f5 & c5 & m5 & -> & _ & _ & _ & Hf5).
  rewrite Hp4 in Hf5. rewrite Hup in Hf5 by by right.
  simpl. by rewrite Hf1, Hf2, Hf3, Hf4, Hf5.
Qed.

End MoreConditions.

Section Rearming.

Import Price Alerts.

Lemma updateById_found f i m k a :
  firstWithId i (alerts m) k a ->
  updateById f i m
  = (true, saveAlerts {| alerts := <[k := f a]> (alerts m); storage := storage m |})
  /\ alerts (updateById f i m).2 !! k = Some (f a)
  /\ (forall j, j <> k -> alerts (updateById f i m).2 !! j = alerts m !! j).
Proof.
  intros Hk. pose proof Hk as Hf. apply list_find_first in Hf.
  unfold updateById. rewrite Hf. simpl. destruct Hk as [Hk _].
  split; [done|]. split.
  - apply list_lookup_insert_eq. by apply lookup_lt_Some in Hk.
  - intros j Hj. by apply list_lookup_insert_ne.
Qed.

Lemma updateById_missing f i m :
  (forall a, a ∈ alerts m -> id a <> i) -> updateById f i m = (false, m).
Proof.
  intros Hno. unfold updateById.
  destruct (list_find _ (alerts m)) as [[k a]|] eqn:E; [|done].
  apply list_find_Some in E as (Hl & Ha & _).
  apply list_elem_of_lookup_2 in Hl. by destruct (Hno a Hl).
Qed.

Lemma fires_armed a cur prev :
  enabled a = true ->
  triggered a = false ->
  (condition a = "above"%string /\ (price a <= cur)%Q)
  \/ (condition a = "below"%string /\ (cur <= price a)%Q) ->
  fires (symbol a) cur prev a = true.
Proof.
  intros He Ht Hc. unfold fires.
  rewrite not_skipped by (by rewrite ?Ht). simpl.
  unfold conditionMet. rewrite Ht.
  destruct Hc as [[-> H]|[-> H]]; simpl.
  - apply geb_true in H. rewrite H. simpl. by destruct (ltb prev (price a)).
  - apply leb_true in H. rewrite H. simpl. by destruct (gtb prev (price a)).
Qed.

(** X10. Re-arming. After [resetAlert(id)] on an enabled [above] (or
    [below]) alert, or [enableAlert(id)] on such an alert enabled or not, the
    next [checkAlerts] for its symbol with a price at or above (at or below)
    the target returns it again, even though the price has not crossed the
    target since it last fired. With an unknown id both return [false] and
    change nothing. *)
Theorem reset_rearms (i : Z) (m : AlertManager) (k : nat) (a : Alert)
    (cur prev : Q) :
  firstWithId i (alerts m) k a ->
  (condition a = "above"%string /\ (price a <= cur)%Q)
  \/ (condition a = "below"%string /\ (cur <= price a)%Q) ->
  (resetAlert i m).1 = true
  /\ (enableAlert i m).1 = true
  /\ (enabled a = true ->
      k ∈ (checkAlerts (symbol a) cur prev (resetAlert i m).2).1)
  /\ k ∈ (checkAlerts (symbol a) cur prev (enableAlert i m).2).1
  /\ (forall i', (forall b, b ∈ alerts m -> id b <> i') ->
        resetAlert i' m = (false, m) /\ enableAlert i' m = (false, m)).
Proof.
  intros Hk Hc. unfold resetAlert, enableAlert.
  destruct (updateById_found (set_triggered false) i m k a Hk) as (E1 & L1 & _).
  destruct (updateById_found (fun alert => set_triggered false (set_enabled true alert))
              i m k a Hk) as (E2 & L2 & _).
  split; [by rewrite E1|]. split; [by rewrite E2|]. split; [|split].
  - intros He.
    apply (checkAlerts_elem (symbol a) cur prev _ k _ L1).
    by apply (fires_armed (set_triggered false a)).
  - apply (checkAlerts_elem (symbol a) cur prev _ k _ L2).
    by apply (fires_armed (set_triggered false (set_enabled true a))).
  - intros i' Hno. split; by apply updateById_missing.
Qed.

Lemma checkEach_disabled calls : forall m k a,
  alerts m !! k = Some a ->
  enabled a = false ->
  sum_list (App.timesFired k <$> (checkEach calls m).1) = 0%nat
  /\ alerts (checkEach calls m).2 !! k = Some a.
Proof.
  induction calls as [|[[sym cur] prev] rest IH]; intros m k a Hk He; [done|].
  simpl.
  destruct (checkAlerts_elem sym cur prev m k a Hk) as [Hin Hal].
  assert (Hf : fires sym cur prev a = false)
    by (apply fires_skipped, skipped_cases; by left).
  rewrite after_idle in Hal by done.
  assert (Hno : k ∉ (checkAlerts sym cur prev m).1) by (rewrite Hin; congruence).
  clear Hin.
  destruct (checkAlerts sym cur prev m) as [fired m1]. simpl in Hno, Hal.
  destruct (IH m1 k a Hal He) as [H0 H1].
  destruct (checkEach rest m1) as [fs m2]. cbn [fst snd] in *.
  rewrite fmap_cons. cbn [sum_list_with].
  change (Datatypes.id (App.timesFired k fired)) with (App.timesFired k fired).
  rewrite timesFired_notin by done. by rewrite H0.
Qed.

(** X11. After [disableAlert(id)] the alert found keeps its trigger state
    and every other field, and from then on no call of [checkAlerts], with
    whatever symbols and prices, returns it or changes it. *)
Theorem disable_silences (i : Z) (m : AlertManager) (k : nat) (a : Alert)
    (calls : list (string * Q * Q)) :
  firstWithId i (alerts m) k a ->
  let m1 := (disableAlert i m).2 in
  (disableAlert i m).1 = true
  /\ alerts m1 !! k = Some (set_enabled false a)
  /\ (forall j, j <> k -> alerts m1 !! j = alerts m !! j)
  /\ storage m1 = alerts m1 :: storage m
  /\ sum_list (App.timesFired k <$> (checkEach calls m1).1) = 0%nat
  /\ alerts (checkEach calls m1).2 !! k = Some (set_enabled false a).
Proof.
  intros Hk. cbv zeta. unfold disableAlert.
  destruct (updateById_found (set_enabled false) i m k a Hk) as (E & L & Hother).
  split; [by rewrite E|]. split; [done|]. split; [done|].
  split; [by rewrite E|].
  by apply checkEach_disabled.
Qed.

End Rearming.

Section ActiveSymbols.

Import Alerts.

Lemma set_add_elem x s y : y ∈ set_add x s <-> y ∈ s \/ y = x.
Proof.
  unfold set_add. case_bool_decide as H.
  - split; [by left|]. by intros [?| ->].
  - rewrite elem_of_app, list_elem_of_singleton. done.
Qed.

Lemma set_add_NoDup x s : NoDup s -> NoDup (set_add x s).
Proof.
  intros Hnd. unfold set_add. case_bool_decide as H; [done|].
  apply NoDup_app. split; [done|]. split; [|apply NoDup_singleton].
  intros y Hy ->%list_elem_of_singleton. done.
Qed.

Lemma fold_set_add (l : list Alert) : forall acc,
  NoDup acc ->
  NoDup (foldl (fun symbols a => set_add (symbol a) symbols) acc l)
  /\ forall s, s ∈ foldl (fun symbols a => set_add (symbol a) symbols) acc l
               <-> s ∈ acc \/ exists a, a ∈ l /\ symbol a = s.
Proof.
  induction l as [|a l IH]; intros acc Hnd; simpl.
  - split; [done|]. intros s. split; [by left|].
    intros [?|(a & Ha & _)]; [done|by apply elem_of_nil in Ha].
  - destruct (IH (set_add (symbol a) acc) (set_add_NoDup _ _ Hnd)) as [H1 H2].
    split; [done|]. intros s. rewrite H2, set_add_elem. split.
    + intros [[?| ->]|(b & Hb & Hs)].
      * by left.
      * right. exists a. split; [apply elem_of_cons; by left|done].
      * right. exists b. split; [apply elem_of_cons; by right|done].
    + intros [?|(b & Hb & Hs)]; [by left; left|].
      apply elem_of_cons in Hb as [->|Hb]; [left; by right|].
      right. by exists b.
Qed.

(** X12. [getActiveSymbols()] lists each symbol that has at least one
    enabled alert, once, and no other symbol. *)
Theorem getActiveSymbols_spec (m : AlertManager) :
  NoDup (getActiveSymbols m)
  /\ forall s, s ∈ getActiveSymbols m
               <-> exists a, a ∈ alerts m /\ enabled a = true /\ symbol a = s.
Proof.
  unfold getActiveSymbols, getEnabledAlerts.
  destruct (fold_set_add (List.filter enabled (alerts m)) [] (NoDup_nil_2)) as [H1 H2].
  split; [done|]. intros s. rewrite H2. split.
  - intros [H|(a & Ha & Hs)]; [by apply elem_of_nil in H|].
    apply list_elem_of_In, filter_In in Ha as [Ha He].
    exists a. by rewrite list_elem_of_In.
  - intros (a & Ha & He & Hs). right. exists a. split; [|done].
    apply list_elem_of_In, filter_In. by rewrite <- list_elem_of_In.
Qed.

End ActiveSymbols.

(** * Further properties of the client *)

Section Registry.

Import Client.






(** X15. After a well-formed tick of price [p], [getPriceData] returns a
    sample whose current price is [p], and [getPrice] returns [p] unless [p]
    is zero, in which case it returns null as for a symbol never seen. *)
Theorem getPrice_after_tick (sym : string) (p : Q) (c : DerivClient) :
  truthy sym = true ->
  let c' := (_handleMessage (tickMessage sym p) c).1 in
  (exists d, getPriceData sym c' = Some d /\ current d = p)
  /\ ((p == 0)%Q -> getPrice sym c' = None)
  /\ (~ (p == 0)%Q -> getPrice sym c' = Some p)
  /\ (forall s, prices c' !! s = None -> getPrice s c' = None).
Proof.
  intros Ht. cbv zeta. unfold _handleMessage, tickMessage, getPrice, getPriceData.
  simpl. rewrite Ht. simpl. rewrite lookup_insert_eq. simpl.
  split; [by eexists|]. split; [|split].
  - intros H. apply Qeq_bool_iff in H. by rewrite H.
  - intros H. destruct (Qeq_bool p 0) eqn:E; [|done].
    apply Qeq_bool_iff in E. done.
  - intros s Hs. by rewrite Hs.
Qed.

End Registry.

Section PriceHistory.

Import Client.

Lemma handleMessages_app msgs1 msgs2 c :
  (handleMessages (msgs1 ++ msgs2) c).1
  = (handleMessages msgs2 (handleMessages msgs1 c).1).1.
Proof.
  revert c. induction msgs1 as [|d msgs1 IH]; intros c; simpl; [done|].
  destruct (_handleMessage d c) as [c1 e1]. specialize (IH c1).
  destruct (handleMessages (msgs1 ++ msgs2) c1) as [c2 e2].
  destruct (handleMessages msgs1 c1) as [c3 e3]. simpl in *. done.
Qed.

Lemma handle_tick_prices sym p c :
  truthy sym = true ->
  prices (handleMessages [tickMessage sym p] c).1
  = <[sym := {| previous := default p (current <$> prices c !! sym); current := p |}]>
      (prices c).
Proof.
  intros Ht. simpl. unfold _handleMessage, tickMessage. simpl. rewrite Ht. simpl.
  by destruct (prices c !! sym).
Qed.

(** The prices of the ticks for [s], in order. *)
Lemma filter_snoc_sym (s : string) (ticks : list (string * Q)) t :
  (filter (fun t => t.1 = s) (ticks ++ [t])).*2
  = (filter (fun t => t.1 = s) ticks).*2 ++ (if decide (t.1 = s) then [t.2] else []).
Proof.
  rewrite filter_app, fmap_app. f_equal.
  rewrite filter_cons, filter_nil. by destruct (decide (t.1 = s)).
Qed.

(** X16. The price store after any sequence of well-formed ticks for any
    symbols: for each symbol, the current price is the price of its last tick
    (or what was stored before, if it had no tick), and once it had a tick the
    previous price is the price current just before that last tick, or the
    tick's own price if there was none. *)
Theorem price_store_history (ticks : list (string * Q)) (c : DerivClient)
    (s : string) :
  Forall (fun t => truthy t.1 = true) ticks ->
  let c' := (handleMessages ((fun t => tickMessage t.1 t.2) <$> ticks) c).1 in
  let seen := (filter (fun t => t.1 = s) ticks).*2 in
  let before := match prices c !! s with Some d => [current d] | None => [] end in
  current <$> prices c' !! s = last (before ++ seen)
  /\ (seen = [] -> prices c' !! s = prices c !! s)
  /\ (forall pre p, seen = pre ++ [p] ->
        previous <$> prices c' !! s = Some (default p (last (before ++ pre)))).
Proof.
  cbv zeta. induction ticks as [|t ticks IH] using rev_ind; intros Hall.
  - simpl. rewrite app_nil_r. split; [by destruct (prices c !! s)|].
    split; [done|]. intros pre p H. by destruct pre.
  - apply Forall_app in Hall as [Hall Ht]. apply Forall_inv in Ht.
    simpl in Ht. destruct (IH Hall) as (Hcur & Hnil & Hprev). clear IH.
    rewrite fmap_app, handleMessages_app.
    change ((fun t => tickMessage t.1 t.2) <$> [t]) with [tickMessage t.1 t.2].
    rewrite handle_tick_prices by done. rewrite filter_snoc_sym.
    set (c1 := (handleMessages ((fun t => tickMessage t.1 t.2) <$> ticks) c).1) in *.
    set (seen := (filter (fun t => t.1 = s) ticks).*2) in *.
    destruct (decide (t.1 = s)) as [Hs|Hs].
    + rewrite Hs, lookup_insert_eq. simpl. split; [|split].
      * by rewrite app_assoc, last_snoc.
      * intros H. by destruct seen.
      * intros pre p [-> ->]%app_inj_tail. by rewrite Hcur.
    + rewrite lookup_insert_ne by done. rewrite app_nil_r. done.
Qed.

End PriceHistory.

Section Backoff.

Import Client.

(** X17. The delays of successive attempts: they never decrease, they double
    from 2 seconds up to the fourth attempt, and from the fifth attempt on
    they are 30 seconds. *)
Theorem backoff_schedule (n : nat) :
  backoff n <= backoff (S n)
  /\ ((n <= 4)%nat -> backoff n = 1000 * 2 ^ Z.of_nat n)
  /\ ((5 <= n)%nat -> backoff n = 30000)
  /\ backoff 1 = 2000 /\ backoff 4 = 16000.
Proof.
  unfold backoff.
  assert (Hmono : 2 ^ Z.of_nat n <= 2 ^ Z.of_nat (S n))
    by (apply Z.pow_le_mono_r; lia).
  split; [lia|]. split; [|split; [|done]].
  - intros H.
    assert (2 ^ Z.of_nat n <= 2 ^ 4) by (apply Z.pow_le_mono_r; lia).
    change (2 ^ 4) with 16 in *. lia.
  - intros H.
    assert (2 ^ 5 <= 2 ^ Z.of_nat n) by (apply Z.pow_le_mono_r; lia).
    change (2 ^ 5) with 32 in *. lia.
Qed.

Lemma exited_app es1 es2 : exited (es1 ++ es2) = exited es1 || exited es2.
Proof. unfold exited. apply existsb_app. Qed.

Lemma onClose_below c :
  (reconnectAttempts c < maxReconnectAttempts c)%nat ->
  timeouts (onClose c).2 = [backoff (S (reconnectAttempts c))]
  /\ exited (onClose c).2 = false
  /\ reconnectAttempts (onClose c).1 = S (reconnectAttempts c)
  /\ maxReconnectAttempts (onClose c).1 = maxReconnectAttempts c
  /\ connected (onClose c).1 = false.
Proof.
  intros H. unfold onClose, _stopPing. simpl.
  destruct (pingInterval c); simpl;
    rewrite attemptReconnect_below by done; simpl; done.
Qed.

Lemma onClose_exhausted c :
  (maxReconnectAttempts c <= reconnectAttempts c)%nat ->
  timeouts (onClose c).2 = []
  /\ exited (onClose c).2 = true
  /\ Exit 1 ∈ (onClose c).2.
Proof.
  intros H. unfold onClose, _stopPing. simpl.
  destruct (pingInterval c); simpl;
    rewrite attemptReconnect_exhausted by done; simpl;
    (split; [done|]; split; [done|]);
    repeat (first [by apply elem_of_cons; left | apply elem_of_cons; right]).
Qed.

Lemma closeRepeatedly_spec n : forall c,
  (reconnectAttempts c <= maxReconnectAttempts c)%nat ->
  let a := reconnectAttempts c in
  let d := (n `min` (maxReconnectAttempts c - a))%nat in
  timeouts (closeRepeatedly n c).2 = (fun k => backoff (a + S k)) <$> seq 0 d
  /\ exited (closeRepeatedly n c).2 = bool_decide (maxReconnectAttempts c - a < n)%nat
  /\ (exited (closeRepeatedly n c).2 = false ->
      reconnectAttempts (closeRepeatedly n c).1 = (a + n)%nat
      /\ maxReconnectAttempts (closeRepeatedly n c).1 = maxReconnectAttempts c).
Proof.
  induction n as [|n IH]; intros c Hle; cbv zeta.
  - cbn [closeRepeatedly fst snd]. split; [done|]. split.
    + rewrite bool_decide_eq_false_2 by lia. done.
    + intros _. split; [lia|done].
  - cbn [closeRepeatedly].
    destruct (decide (reconnectAttempts c < maxReconnectAttempts c)%nat) as [Hlt|Hge].
    + destruct (onClose_below c Hlt) as (Ht & Hex & Ha & Hm & _).
      destruct (onClose c) as [c1 e1]. simpl in Ht, Hex, Ha, Hm. rewrite Hex.
      destruct (IH c1 ltac:(lia)) as (IHt & IHe & IHa).
      destruct (closeRepeatedly n c1) as [c2 e2]. simpl in IHt, IHe, IHa |- *.
      rewrite timeouts_app, exited_app, Ht, Hex, IHt, IHe, Ha, Hm.
      replace (maxReconnectAttempts c - S (reconnectAttempts c))%nat
        with (pred (maxReconnectAttempts c - reconnectAttempts c)) by lia.
      destruct (maxReconnectAttempts c - reconnectAttempts c)%nat as [|m'] eqn:Em;
        [lia|].
      cbn [orb app seq Nat.pred]. rewrite fmap_cons.
      split; [|split].
      * f_equal; [f_equal; lia|].
        rewrite <- fmap_S_seq, <- list_fmap_compose.
        apply list_fmap_ext. intros ? k ?. simpl. f_equal. lia.
      * apply bool_decide_ext. lia.
      * intros Hne. apply bool_decide_eq_false in Hne.
        destruct IHa as [IHa1 IHa2].
        { rewrite IHe. apply bool_decide_eq_false_2. lia. }
        rewrite IHa1, IHa2. lia.
    + destruct (onClose_exhausted c ltac:(lia)) as (Ht & Hex & _).
      destruct (onClose c) as [c1 e1]. simpl in Ht, Hex. rewrite Hex.
      cbn [fst snd]. rewrite Ht, Hex.
      replace (maxReconnectAttempts c - reconnectAttempts c)%nat with 0%nat by lia.
      split; [done|]. split; [|done].
      symmetry. apply bool_decide_eq_true_2. lia.
Qed.

(** X18. Closes in a row, with no successful connection in between, starting
    from a counter [a] that has not passed the limit [M]: the first [M - a]
    of them each set one reconnect timer, with delays [backoff (a+1)],
    [backoff (a+2)], ..., [backoff M], and leave the counter at [M]; the next
    close sets no timer and exits the process with code 1. However many
    closes follow one another, no more than [M - a] timers are set. *)
Theorem reconnect_exhaustion (c : DerivClient) (n : nat) :
  (reconnectAttempts c <= maxReconnectAttempts c)%nat ->
  let a := reconnectAttempts c in
  let left := (maxReconnectAttempts c - a)%nat in
  let r := closeRepeatedly left c in
  timeouts r.2 = (fun k => backoff (a + S k)) <$> seq 0 left
  /\ exited r.2 = false
  /\ reconnectAttempts r.1 = maxReconnectAttempts c
  /\ timeouts (onClose r.1).2 = []
  /\ Exit 1 ∈ (onClose r.1).2
  /\ (length (timeouts (closeRepeatedly n c).2) <= left)%nat.
Proof.
  intros Hle. cbv zeta.
  destruct (closeRepeatedly_spec (maxReconnectAttempts c - reconnectAttempts c) c Hle)
    as (Ht & He & Ha).
  rewrite Nat.min_id in Ht.
  rewrite bool_decide_eq_false_2 in He by lia.
  destruct (Ha He) as [Ha' Hm].
  assert (Hfull : reconnectAttempts (closeRepeatedly
                    (maxReconnectAttempts c - reconnectAttempts c) c).1
                  = maxReconnectAttempts c) by lia.
  split; [done|]. split; [done|]. split; [done|].
  destruct (onClose_exhausted (closeRepeatedly
              (maxReconnectAttempts c - reconnectAttempts c) c).1) as (H1 & _ & H2);
    [rewrite Hm; lia|].
  split; [done|]. split; [done|].
  destruct (closeRepeatedly_spec n c Hle) as (Hn & _).
  rewrite Hn, length_fmap, length_seq. lia.
Qed.

(** X19. A completed handshake ends the backoff: whatever the attempt counter
    was, after ['open'] the client is connected with the counter at 0 and the
    heartbeat running, so that the interval callback sends a ping; a close
    that follows clears that heartbeat, silences the callback and schedules
    the reconnect after 2 seconds again. *)
Theorem open_resets_backoff (c : DerivClient) (h : TimerId) :
  ws c = Some CONNECTING ->
  (0 < maxReconnectAttempts c)%nat ->
  exists c1 es,
    dispatch (EvOpen h) c = Some (c1, es)
    /\ connected c1 = true /\ reconnectAttempts c1 = 0%nat
    /\ SetInterval h ∈ es
    /\ pingTick c1 = [Send Ping]
    /\ exists c2 es',
         dispatch EvClose c1 = Some (c2, es')
         /\ ClearInterval h ∈ es'
         /\ timeouts es' = [2000]
         /\ pingTick c2 = [].
Proof.
  intros Hws Hmax. unfold dispatch. rewrite Hws. simpl.
  eexists _, _. split; [done|]. simpl.
  split; [done|]. split; [done|].
  split; [apply elem_of_cons; right; apply elem_of_cons; by left|].
  split; [done|].
  unfold onClose, _stopPing. simpl.
  rewrite attemptReconnect_below by (simpl; lia). simpl.
  eexists _, _. split; [done|].
  split; [apply elem_of_cons; right; apply elem_of_cons; by left|]. done.
Qed.

End Backoff.

Section Catalog.

Import Client.

Lemma key_set_elem k keys y : y ∈ key_set k keys <-> y ∈ keys \/ y = k.
Proof.
  unfold key_set. case_bool_decide as H.
  - split; [by left|]. by intros [?| ->].
  - rewrite elem_of_app, list_elem_of_singleton. done.
Qed.

Lemma key_set_NoDup k keys : NoDup keys -> NoDup (key_set k keys).
Proof.
  intros Hnd. unfold key_set. case_bool_decide as H; [done|].
  apply NoDup_app. split; [done|]. split; [|apply NoDup_singleton].
  intros y Hy ->%list_elem_of_singleton. done.
Qed.

Lemma fold_key_set (l : list ActiveSymbol) : forall keys,
  NoDup keys ->
  NoDup (foldl (fun keys s => key_set (as_symbol s) keys) keys l)
  /\ forall y, y ∈ foldl (fun keys s => key_set (as_symbol s) keys) keys l
               <-> y ∈ keys \/ exists e, e ∈ l /\ as_symbol e = y.
Proof.
  induction l as [|e l IH]; intros keys Hnd; simpl.
  - split; [done|]. intros y. split; [by left|].
    intros [?|(e & He & _)]; [done|by apply elem_of_nil in He].
  - destruct (IH (key_set (as_symbol e) keys) (key_set_NoDup _ _ Hnd)) as [H1 H2].
    split; [done|]. intros y. rewrite H2, key_set_elem. split.
    + intros [[?| ->]|(b & Hb & Hs)].
      * by left.
      * right. exists e. split; [apply elem_of_cons; by left|done].
      * right. exists b. split; [apply elem_of_cons; by right|done].
    + intros [?|(b & Hb & Hs)]; [by left; left|].
      apply elem_of_cons in Hb as [->|Hb]; [left; by right|].
      right. by exists b.
Qed.

(** X20. The answer to the catalog request. A frame with another request id
    is ignored. One with the right id and an error rejects and leaves the
    catalog as it was. One with the right id and a symbol list replaces the
    catalog: afterwards a symbol is valid exactly when the list has an entry
    for it in one of the three allowed markets, whatever the catalog held
    before, each symbol is listed once, and nothing else in the client
    changes. One with the right id and neither leaves the request pending for
    ever. *)
Theorem catalog_loaded (n : nat) (msg : SymbolsReply) (c : DerivClient) :
  let r := symbolsHandler n msg c in
  (sr_req_id msg <> Some n -> r = (c, [], Pending))
  /\ (forall reason, sr_req_id msg = Some n -> sr_error msg = Some reason ->
        r = (c, [], Rejected reason))
  /\ (forall l, sr_req_id msg = Some n -> sr_error msg = None ->
        sr_active_symbols msg = Some l ->
        r.2 = Resolved
        /\ NoDup (activeSymbols r.1.1)
        /\ (forall s, isValidSymbol s r.1.1 = true
                      <-> exists e, e ∈ l /\ as_symbol e = s
                                    /\ as_market e ∈ allowedMarkets)
        /\ r.1.1 = set_activeSymbols (activeSymbols r.1.1) c
        /\ r.1.2 = [LogLoadedSymbols (length (activeSymbols r.1.1))])
  /\ (sr_req_id msg = Some n -> sr_error msg = None ->
      sr_active_symbols msg = None -> r = (c, [], Pending)).
Proof.
  cbv zeta. unfold symbolsHandler. split; [|split; [|split]].
  - intros H. by rewrite bool_decide_eq_false_2.
  - intros reason H He. by rewrite bool_decide_eq_true_2, He.
  - intros l H He Hl. rewrite bool_decide_eq_true_2, He, Hl by done. simpl.
    destruct (fold_key_set
                (List.filter (fun s => bool_decide (as_market s ∈ allowedMarkets)) l)
                [] NoDup_nil_2) as [H1 H2].
    split; [done|]. split; [done|]. split; [|done].
    intros s. unfold isValidSymbol. simpl.
    rewrite bool_decide_eq_true, H2. split.
    + intros [Hn|(e & He' & Hs)]; [by apply elem_of_nil in Hn|].
      apply list_elem_of_In, filter_In in He' as [Hin Hm].
      apply bool_decide_eq_true in Hm. exists e. by rewrite list_elem_of_In.
    + intros (e & Hin & Hs & Hm). right. exists e. split; [|done].
      apply list_elem_of_In, filter_In. split; [by apply list_elem_of_In|].
      by apply bool_decide_eq_true.
  - intros H He Hl. by rewrite bool_decide_eq_true_2, He, Hl.
Qed.

Lemma targets_are_not_aliases :
  Forall (fun e => map_get (toUpperCase e.2) SYMBOL_ALIASES = None) SYMBOL_ALIASES.
Proof. unfold SYMBOL_ALIASES. repeat (constructor; [by vm_compute|]). constructor. Qed.

(** X21. With the built-in alias table, [resolveSymbol] treats two spellings
    that differ only in case alike: they resolve to the same symbol, unless
    neither matches anything and each comes back as typed. And if the catalog
    spells every alias target as the table does, resolving a resolved symbol
    again changes nothing. *)
Theorem resolveSymbol_stable (c : DerivClient) (x y : string) :
  symbolAliases c = SYMBOL_ALIASES ->
  (toUpperCase x = toUpperCase y ->
   resolveSymbol x c = resolveSymbol y c
   \/ (resolveSymbol x c = x /\ resolveSymbol y c = y))
  /\ ((forall s e, s ∈ activeSymbols c -> e ∈ SYMBOL_ALIASES ->
                   toUpperCase s = toUpperCase e.2 -> s = e.2) ->
      resolveSymbol (resolveSymbol x c) c = resolveSymbol x c).
Proof.
  intros Hc. split.
  - intros Hxy. unfold resolveSymbol. rewrite <- Hxy.
    destruct (map_get (toUpperCase x) (symbolAliases c)) as [t|].
    + destruct (truthy t); [by left|].
      destruct (List.find _ (activeSymbols c)); [by left|by right].
    + destruct (List.find _ (activeSymbols c)); [by left|by right].
  - intros Hspell.
    pose proof aliases_wellformed as W. rewrite Forall_forall in W.
    pose proof targets_are_not_aliases as N. rewrite Forall_forall in N.
    assert (Hscan : forall s,
              List.find (fun symbol => String.eqb (toUpperCase symbol) (toUpperCase x))
                        (activeSymbols c) = Some s ->
              map_get (toUpperCase x) SYMBOL_ALIASES = None ->
              resolveSymbol s c = s).
    { intros s Hf Hno. pose proof Hf as Hf'. apply find_some in Hf' as [_ E].
      apply String.eqb_eq in E. unfold resolveSymbol.
      by rewrite Hc, E, Hno, Hf. }
    unfold resolveSymbol at 2 3. rewrite Hc.
    destruct (map_get (toUpperCase x) SYMBOL_ALIASES) as [t|] eqn:Hget.
    + apply map_get_elem in Hget.
      destruct (W _ Hget) as (_ & _ & Htr). cbn [snd] in Htr. rewrite Htr.
      pose proof (N _ Hget) as Hno. cbn [snd] in Hno.
      unfold resolveSymbol. rewrite Hc, Hno. clear Hscan.
      destruct (List.find
                  (fun symbol => String.eqb (toUpperCase symbol) (toUpperCase t))
                  (activeSymbols c)) as [s|] eqn:Hf; [|done].
      apply find_some in Hf as [Hin E]. apply String.eqb_eq in E.
      apply (Hspell s (toUpperCase x, t)); [by apply list_elem_of_In|done|done].
    + destruct (List.find _ (activeSymbols c)) as [s|] eqn:Hf.
      * by apply Hscan.
      * unfold resolveSymbol. by rewrite Hc, Hget, Hf.
Qed.

End Catalog.

(** * Properties of the message splitter *)

Section Splitting.

Import Telegram.

Local Open Scope string_scope.

Lemma append_cons ch (s t : string) : String ch s ++ t = String ch (s ++ t).
Proof. reflexivity. Qed.

Lemma append_nil_l (t : string) : "" ++ t = t.
Proof. reflexivity. Qed.

Lemma append_nil_r (s : string) : s ++ "" = s.
Proof. induction s as [|ch s IH]; [done|]. by rewrite append_cons, IH. Qed.

Lemma append_assoc (s1 s2 s3 : string) : (s1 ++ s2) ++ s3 = s1 ++ (s2 ++ s3).
Proof. induction s1 as [|ch s1 IH]; [done|]. by rewrite !append_cons, IH. Qed.

Lemma length_withLF (s : string) : String.length (withLF s) = S (String.length s).
Proof.
  unfold withLF. induction s as [|ch s IH]; [done|].
  rewrite append_cons. simpl. by rewrite IH.
Qed.

Lemma append_withLF_nonempty (s line : string) : s ++ withLF line <> "".
Proof.
  intros H. apply (f_equal String.length) in H.
  assert (Hlen : forall a b, String.length (a ++ b)
                             = (String.length a + String.length b)%nat).
  { intros a b. induction a as [|ch a IH]; [done|].
    rewrite append_cons. simpl. by rewrite IH. }
  rewrite Hlen, length_withLF in H. simpl in H. lia.
Qed.

Lemma joined_nil : joined [] = "".
Proof. reflexivity. Qed.

Lemma joined_cons p l : joined (p :: l) = p ++ joined l.
Proof. reflexivity. Qed.

Lemma joined_app (l1 l2 : list string) : joined (l1 ++ l2) = joined l1 ++ joined l2.
Proof.
  induction l1 as [|p l1 IH]; [done|].
  change ((p :: l1) ++ l2)%list with (p :: (l1 ++ l2))%list.
  by rewrite !joined_cons, IH, append_assoc.
Qed.

Lemma splitLines_nonempty (message : string) : splitLines message <> [].
Proof.
  induction message as [|ch r IH]; simpl; [done|].
  destruct (Ascii.eqb ch LF); [done|]. by destruct (splitLines r).
Qed.

Lemma joined_lines (message : string) :
  joined (withLF <$> splitLines message) = message ++ String LF "".
Proof.
  induction message as [|ch r IH]; [done|].
  cbn [splitLines].
  destruct (Ascii.eqb_spec ch LF) as [->|Hne].
  - rewrite fmap_cons, joined_cons, IH. done.
  - pose proof (splitLines_nonempty r) as Hr.
    destruct (splitLines r) as [|line lines]; [done|].
    rewrite !fmap_cons, !joined_cons in *.
    unfold withLF in *. rewrite !append_cons. by rewrite IH.
Qed.

Lemma splitLoop_spec maxLength all : forall lines parts current,
  lines ⊆ all ->
  Forall (fits maxLength all) parts ->
  fits maxLength all current ->
  let r := splitLoop maxLength lines parts current in
  joined r.1 ++ r.2 = joined parts ++ current ++ joined (withLF <$> lines)
  /\ Forall (fits maxLength all) r.1
  /\ fits maxLength all r.2
  /\ (exists more, r.1 = (parts ++ more)%list)
  /\ (lines <> [] -> r.2 <> "").
Proof.
  induction lines as [|line rest IH]; intros parts current Hsub Hparts Hcur; cbv zeta.
  - cbn [splitLoop fst snd]. rewrite fmap_nil, joined_nil, append_nil_r.
    repeat split; try done. exists []. by rewrite app_nil_r.
  - assert (Hrest : rest ⊆ all) by (intros z Hz; apply Hsub, elem_of_cons; by right).
    assert (Hline : line ∈ all) by (apply Hsub, elem_of_cons; by left).
    cbn [splitLoop]. rewrite fmap_cons, joined_cons.
    destruct (Nat.ltb_spec maxLength (String.length (current ++ withLF line)))
      as [Hlong|Hshort].
    + destruct (IH (parts ++ [current])%list (withLF line) Hrest)
        as (H1 & H2 & H3 & H4 & H5).
      { apply Forall_app. split; [done|]. by apply Forall_singleton. }
      { right. by exists line. }
      split; [|split; [done|split; [done|split]]].
      * rewrite H1, joined_app, joined_cons, joined_nil, append_nil_r.
        by rewrite !append_assoc.
      * destruct H4 as [more ->]. exists (current :: more). by rewrite <- app_assoc.
      * intros _. destruct rest as [|l2 rest']; [|by apply H5].
        cbn [splitLoop snd]. apply (append_withLF_nonempty "" line).
    + destruct (IH parts (current ++ withLF line) Hrest Hparts)
        as (H1 & H2 & H3 & H4 & H5).
      { by left. }
      split; [|split; [done|split; [done|split; [done|]]]].
      * rewrite H1. by rewrite !append_assoc.
      * intros _. destruct rest as [|l2 rest']; [|by apply H5].
        cbn [splitLoop snd]. apply append_withLF_nonempty.
Qed.

(** X22. [splitMessage(message, maxLength)] loses and reorders nothing: its
    parts put end to end are the message followed by a line feed. Every part
    is at most [maxLength] long or is one single line of the message with its
    line feed (a line too long to fit). When the first line does not fit, the
    first part is the empty string. *)
Theorem splitMessage_parts (message : string) (maxLength : nat) :
  joined (splitMessage message maxLength) = message ++ String LF ""
  /\ Forall (fun p => (String.length p <= maxLength)%nat
                      \/ exists line, line ∈ splitLines message /\ p = withLF line)
            (splitMessage message maxLength)
  /\ (forall first rest,
        splitLines message = first :: rest ->
        (maxLength < S (String.length first))%nat ->
        exists more, splitMessage message maxLength = "" :: more).
Proof.
  unfold splitMessage.
  destruct (splitLoop_spec maxLength (splitLines message) (splitLines message) [] "")
    as (H1 & H2 & H3 & _ & H5); [done|done|left; simpl; lia|].
  specialize (H5 (splitLines_nonempty message)).
  destruct (splitLoop maxLength (splitLines message) [] "") as [parts current] eqn:E.
  cbn [fst snd] in H1, H2, H3, H5.
  assert (Ht : Client.truthy current = true).
  { unfold Client.truthy. apply negb_true_iff, String.eqb_neq. done. }
  rewrite Ht. split; [|split].
  - rewrite joined_app, joined_cons, joined_nil, append_nil_r, H1.
    rewrite joined_nil, !append_nil_l. apply joined_lines.
  - apply Forall_app. split; [done|]. by apply Forall_singleton.
  - intros first rest Hl Hlong. rewrite Hl in E. cbn [splitLoop] in E.
    rewrite append_nil_l in E.
    assert (Hlen : (maxLength <? String.length (withLF first))%nat = true).
    { apply Nat.ltb_lt. by rewrite length_withLF. }
    rewrite Hlen in E.
    destruct (splitLoop_spec maxLength (splitLines message) rest ([] ++ [""])%list
                (withLF first)) as (_ & _ & _ & [more Hm] & _).
    { rewrite Hl. intros z Hz. apply elem_of_cons. by right. }
    { apply Forall_singleton. left. simpl. lia. }
    { right. exists first. split; [|done]. rewrite Hl. apply elem_of_cons. by left. }
    rewrite E in Hm. cbn [fst app] in Hm. subst parts.
    by exists (more ++ [current])%list.
Qed.

End Splitting.

(** * Numbering of the alerts *)

Section Numbering.

Import Alerts.

Lemma max_ids_le (l : list Alert) n :
  0 <= n -> (forall a, a ∈ l -> id a <= n) -> foldr Z.max 0 (id <$> l) <= n.
Proof.
  intros Hn. induction l as [|b l IH]; csimpl; [done|].
  intros H. apply Z.max_lub.
  - apply H, elem_of_cons. by left.
  - apply IH. intros a Ha. apply H, elem_of_cons. by right.
Qed.

Lemma numbered_newId l : numbered l -> newId l = Z.of_nat (length l) + 1.
Proof.
  intros Hn. unfold newId. f_equal. apply Z.le_antisymm.
  - apply max_ids_le; [lia|]. intros a [j Hj]%list_elem_of_lookup.
    rewrite (Hn j a Hj). apply lookup_lt_Some in Hj. lia.
  - destruct (decide (length l = 0%nat)) as [H0|H0].
    + rewrite H0. apply max_ids_nonneg.
    + destruct (l !! pred (length l)) as [a|] eqn:Ha.
      * pose proof (Hn _ a Ha) as Hid.
        apply list_elem_of_lookup_2, max_ids_ge in Ha. lia.
      * apply lookup_ge_None in Ha. lia.
Qed.

Lemma numbered_renumber (l : list Alert) :
  numbered (imap (fun index alert => set_id (Z.of_nat index + 1) alert) l).
Proof.
  intros j a. rewrite renumber_lookup.
  destruct (l !! j); [|done]. by intros [= <-].
Qed.

Lemma numbered_insert l k a (f : Alert -> Alert) :
  numbered l -> l !! k = Some a -> id (f a) = id a -> numbered (<[k := f a]> l).
Proof.
  intros Hn Hk Hid j b Hj. destruct (decide (j = k)) as [->|Hne].
  - rewrite list_lookup_insert_eq in Hj by by apply lookup_lt_Some in Hk.
    injection Hj as <-. rewrite Hid. by apply Hn.
  - rewrite list_lookup_insert_ne in Hj by done. by apply Hn.
Qed.

Lemma numbered_updateById f i m :
  (forall a, id (f a) = id a) -> numbered (alerts m) ->
  numbered (alerts (updateById f i m).2).
Proof.
  intros Hf Hn. unfold updateById.
  destruct (list_find _ (alerts m)) as [[k a]|] eqn:E; [|done].
  apply list_find_Some in E as (Hk & _). simpl. by apply numbered_insert.
Qed.

(** X23. Once the ids are the positions counted from 1, every operation of
    the manager keeps them so: adding (the new alert gets the next number),
    removing, clearing, enabling, disabling, resetting and evaluating. Removing
    an alert that exists and clearing at least one alert establish this
    numbering whatever the ids were. *)
Theorem numbering_invariant (m : AlertManager) :
  numbered (alerts m) ->
  (forall sym nm cond p rep,
     numbered (alerts (addAlert sym nm cond p rep m).2)
     /\ id (addAlert sym nm cond p rep m).1 = Z.of_nat (length (alerts m)) + 1)
  /\ (forall i, numbered (alerts (removeAlert i m).2))
  /\ numbered (alerts (clearTriggered m).2)
  /\ (forall i, numbered (alerts (enableAlert i m).2)
                /\ numbered (alerts (disableAlert i m).2)
                /\ numbered (alerts (resetAlert i m).2))
  /\ (forall sym cur prev, numbered (alerts (checkAlerts sym cur prev m).2)).
Proof.
  intros Hn. split; [|split; [|split; [|split]]].
  - intros sym nm cond p rep. unfold addAlert. simpl.
    rewrite numbered_newId by done. split; [|done].
    intros j a Hj. apply lookup_app_Some in Hj as [Hj|[Hge Hj]]; [by apply Hn|].
    apply list_lookup_singleton_Some in Hj as [Hj <-]. simpl. lia.
  - intros i. unfold removeAlert.
    destruct (list_find _ (alerts m)) as [[k a]|]; [|done].
    simpl. apply numbered_renumber.
  - unfold clearTriggered.
    destruct (0 <? _)%nat; [|done]. simpl. apply numbered_renumber.
  - intros i. unfold enableAlert, disableAlert, resetAlert.
    repeat split; by apply numbered_updateById.
  - intros sym cur prev j a Hj.
    rewrite checkAlerts_alerts, list_lookup_fmap in Hj.
    destruct (alerts m !! j) as [b|] eqn:Hb; [|done].
    injection Hj as <-. rewrite <- (Hn j b Hb).
    unfold after. by destruct (fires sym cur prev b).
Qed.

(** X24. With the ids numbered from 1, adding an alert and removing it again
    by the id it was given leaves the array of alerts exactly as it was; the
    two operations each save once. *)
Theorem add_then_remove (sym nm cond : string) (p : Q) (rep : bool)
    (m : AlertManager) :
  numbered (alerts m) ->
  let added := addAlert sym nm cond p rep m in
  let r := removeAlert (id added.1) added.2 in
  r.1 = true
  /\ alerts r.2 = alerts m
  /\ storage r.2 = alerts m :: (alerts m ++ [added.1]) :: storage m.
Proof.
  intros Hn. cbv zeta.
  assert (Hal : alerts (addAlert sym nm cond p rep m).2
                = alerts m ++ [(addAlert sym nm cond p rep m).1]) by done.
  assert (Hst : storage (addAlert sym nm cond p rep m).2
                = alerts (addAlert sym nm cond p rep m).2 :: storage m) by done.
  assert (Hlt : forall a, a ∈ alerts m -> id a < id (addAlert sym nm cond p rep m).1).
  { intros a Ha. apply max_ids_ge in Ha. unfold addAlert, newId. simpl. lia. }
  set (added := addAlert sym nm cond p rep m) in *.
  assert (Hfirst : firstWithId (id added.1) (alerts added.2) (length (alerts m)) added.1).
  { unfold firstWithId. rewrite Hal. split; [|split; [done|]].
    - by rewrite lookup_app_r, Nat.sub_diag.
    - intros j b Hj Hb. rewrite lookup_app_l in Hb by done.
      apply list_elem_of_lookup_2, Hlt in Hb. lia. }
  apply list_find_first in Hfirst. unfold removeAlert. rewrite Hfirst.
  cbn [fst snd]. unfold renumberAlerts, saveAlerts. cbn [alerts storage].
  assert (Hdel : delete (length (alerts m)) (alerts added.2) = alerts m).
  { rewrite Hal. rewrite delete_middle. apply app_nil_r. }
  rewrite Hdel.
  assert (Hren : imap (fun index alert => set_id (Z.of_nat index + 1) alert) (alerts m)
                 = alerts m).
  { apply list_eq. intros j. rewrite renumber_lookup.
    destruct (alerts m !! j) as [a|] eqn:Ha; [|done]. simpl.
    rewrite <- (Hn j a Ha). by destruct a. }
  rewrite Hren. split; [done|]. split; [done|]. by rewrite Hst, Hal.
Qed.

End Numbering.

(** * The further theorems at concrete states *)

Section MoreInstances.

Import Alerts Client App Telegram.

Lemma sample_first : firstWithId 1 (alerts (Sample.manager "above")) 0 (Sample.rule "above").
Proof. split; [reflexivity|]. split; [reflexivity|]. intros j b Hj. lia. Qed.

Lemma book_numbered : numbered (alerts Sample.book).
Proof.
  intros j a Hj. destruct j as [|[|[|j]]]; simpl in Hj;
    try (injection Hj as <-; reflexivity); discriminate.
Qed.

Lemma removeAlert_renumbers_witness :
  (exists a, a ∈ alerts Sample.book /\ id a = 2)
  /\ (removeAlert 2 Sample.book).1 = true
  /\ S (length (alerts (removeAlert 2 Sample.book).2)) = 3%nat.
Proof.
  assert (H : exists a, a ∈ alerts Sample.book /\ id a = 2).
  { exists Sample.spent. split; [|reflexivity].
    apply elem_of_cons. right. apply elem_of_cons. left. reflexivity. }
  split; [exact H|].
  destruct (removeAlert_renumbers 2 Sample.book H) as (H1 & k & a & _ & _ & H2 & _).
  split; [exact H1|exact H2].
Defined.

Lemma clearTriggered_result_witness :
  (clearTriggered Sample.book).1 = 1%nat
  /\ length (alerts (clearTriggered Sample.book).2) = 2%nat.
Proof.
  destruct (clearTriggered_result Sample.book) as (H1 & H2 & _).
  split; [exact H1|]. change (3 = 1 + length (alerts (clearTriggered Sample.book).2))%nat in H2.
  lia.
Defined.

Lemma checkAlerts_frame_witness :
  alerts Sample.book !! 0%nat = Some (Sample.rule "above")
  /\ length (alerts (checkAlerts "R_10" 101 99 Sample.book).2) = 3%nat.
Proof.
  split; [reflexivity|].
  apply (checkAlerts_frame "R_10" 101 99 Sample.book 0 (Sample.rule "above") eq_refl).
Defined.

Lemma checkAlerts_untouched_witness :
  alerts Sample.book !! 2%nat = Some Sample.dormant
  /\ enabled Sample.dormant = false
  /\ alerts (checkAlerts "R_10" 101 99 Sample.book).2 !! 2%nat = Some Sample.dormant.
Proof.
  split; [reflexivity|]. split; [reflexivity|].
  apply (checkAlerts_untouched "R_10" 101 99 Sample.book 2 Sample.dormant eq_refl).
  left. reflexivity.
Defined.

Lemma non_repeating_fires_once_witness :
  alerts Sample.book !! 0%nat = Some (Sample.rule "above")
  /\ (sum_list (timesFired 0 <$>
        (checkEach [("R_10"%string, 101%Q, 99%Q); ("R_10"%string, 102%Q, 98%Q)]
                   Sample.book).1) <= 1)%nat.
Proof.
  split; [reflexivity|].
  apply (non_repeating_fires_once _ Sample.book 0 (Sample.rule "above") eq_refl eq_refl).
Defined.

Lemma checkAlerts_persistence_witness :
  alerts Sample.book !! 0%nat = Some (Sample.rule "above")
  /\ exists snap rest,
       storage (checkAlerts "R_10" 101 99 Sample.book).2 = snap :: rest
       /\ snap !! 0%nat = Some (set_triggered true (Sample.rule "above")).
Proof.
  split; [reflexivity|].
  destruct (checkAlerts_persistence "R_10" 101 99 Sample.book) as (_ & _ & H).
  apply (H 0%nat (Sample.rule "above") eq_refl); [|reflexivity].
  apply (checkAlerts_elem "R_10" 101 99 Sample.book 0 (Sample.rule "above") eq_refl).
  reflexivity.
Defined.

Lemma below_rule_fires_witness :
  alerts (Sample.manager "below") !! 0%nat = Some (Sample.rule "below")
  /\ timesFired 0 <$> (feedTicks "R_10" [(100 + 1)%Q; (100 - 1)%Q]
                         (Sample.client, Sample.manager "below")).1
     = [0; 1]%nat.
Proof.
  split; [reflexivity|].
  destruct (below_rule_fires Sample.client (Sample.manager "below") 0
              (Sample.rule "below") eq_refl eq_refl eq_refl eq_refl) as [_ H].
  apply (H eq_refl eq_refl (ex_intro _ 1%nat eq_refl)).
Defined.

Lemma repeating_rule_refires_witness :
  alerts Sample.repeatingManager !! 0%nat = Some Sample.repeating
  /\ timesFired 0 <$> (feedTicks "R_10"
                         [(100 - 1)%Q; (100 + 1)%Q; (100 + 2)%Q; (100 - 1)%Q; (100 + 1)%Q]
                         (Sample.client, Sample.repeatingManager)).1
     = [0; 1; 0; 0; 1]%nat.
Proof.
  split; [reflexivity|].
  apply (repeating_rule_refires Sample.client Sample.repeatingManager 0 Sample.repeating
           eq_refl eq_refl eq_refl eq_refl eq_refl (ex_intro _ 1%nat eq_refl)).
Defined.

Lemma reset_rearms_witness :
  firstWithId 1 (alerts (Sample.manager "above")) 0 (Sample.rule "above")
  /\ 0%nat ∈ (checkAlerts "R_10" 105 101 (resetAlert 1 (Sample.manager "above")).2).1.
Proof.
  split; [exact sample_first|].
  destruct (reset_rearms 1 (Sample.manager "above") 0 (Sample.rule "above") 105 101
              sample_first) as (_ & _ & H & _).
  { left. split; [reflexivity|]. unfold Qle. simpl. lia. }
  apply H. reflexivity.
Defined.

Lemma disable_silences_witness :
  firstWithId 1 (alerts (Sample.manager "above")) 0 (Sample.rule "above")
  /\ sum_list (timesFired 0 <$>
       (checkEach [("R_10"%string, 101%Q, 99%Q)]
                  (disableAlert 1 (Sample.manager "above")).2).1) = 0%nat.
Proof.
  split; [exact sample_first|].
  apply (disable_silences 1 (Sample.manager "above") 0 (Sample.rule "above")
           [("R_10"%string, 101%Q, 99%Q)] sample_first).
Defined.



Lemma getPrice_after_tick_witness :
  truthy "R_10" = true
  /\ getPrice "R_10" (_handleMessage (tickMessage "R_10" 0) Sample.client).1 = None
  /\ getPrice "R_10" (_handleMessage (tickMessage "R_10" 5) Sample.client).1 = Some 5%Q.
Proof.
  split; [reflexivity|]. split.
  - destruct (getPrice_after_tick "R_10" 0 Sample.client eq_refl) as (_ & H & _).
    apply H. reflexivity.
  - destruct (getPrice_after_tick "R_10" 5 Sample.client eq_refl) as (_ & _ & H & _).
    apply H. discriminate.
Defined.

Lemma price_store_history_witness :
  Forall (fun t => truthy t.1 = true)
         [("R_10"%string, 5%Q); ("R_25"%string, 7%Q); ("R_10"%string, 6%Q)]
  /\ previous <$> prices (handleMessages
                            ((fun t => tickMessage t.1 t.2) <$>
                             [("R_10"%string, 5%Q); ("R_25"%string, 7%Q);
                              ("R_10"%string, 6%Q)]) Sample.client).1
                  !! "R_10"%string
     = Some 5%Q.
Proof.
  assert (H : Forall (fun t => truthy t.1 = true)
                [("R_10"%string, 5%Q); ("R_25"%string, 7%Q); ("R_10"%string, 6%Q)])
    by (repeat constructor).
  split; [exact H|].
  destruct (price_store_history _ Sample.client "R_10" H) as (_ & _ & H3).
  apply (H3 [5%Q] 6%Q). reflexivity.
Defined.

Lemma reconnect_exhaustion_witness :
  (reconnectAttempts Sample.client <= maxReconnectAttempts Sample.client)%nat
  /\ reconnectAttempts (closeRepeatedly 10 Sample.client).1 = 10%nat
  /\ Exit 1 ∈ (onClose (closeRepeatedly 10 Sample.client).1).2.
Proof.
  assert (H : (reconnectAttempts Sample.client <= maxReconnectAttempts Sample.client)%nat)
    by (simpl; lia).
  split; [exact H|].
  destruct (reconnect_exhaustion Sample.client 0 H) as (_ & _ & H1 & _ & H2 & _).
  split; [exact H1|exact H2].
Defined.

Lemma open_resets_backoff_witness :
  ws (connect Client.new).1 = Some CONNECTING
  /\ exists c1 es, dispatch (EvOpen 7%nat) (connect Client.new).1 = Some (c1, es)
                   /\ reconnectAttempts c1 = 0%nat.
Proof.
  split; [reflexivity|].
  destruct (open_resets_backoff (connect Client.new).1 7%nat eq_refl)
    as (c1 & es & H1 & _ & H2 & _).
  { simpl. lia. }
  exists c1, es. split; [exact H1|exact H2].
Defined.

Lemma catalog_loaded_witness :
  isValidSymbol "cryBTCUSD" (symbolsHandler 1 (Sample.catalogReply 1) Sample.client).1.1
  = true
  /\ NoDup (activeSymbols (symbolsHandler 1 (Sample.catalogReply 1) Sample.client).1.1).
Proof.
  destruct (catalog_loaded 1 (Sample.catalogReply 1) Sample.client) as (_ & _ & H & _).
  destruct (H _ eq_refl eq_refl eq_refl) as (_ & H1 & H2 & _).
  split; [|exact H1].
  apply H2.
  exists {| as_symbol := "cryBTCUSD"; as_market := "cryptocurrency" |}.
  split; [|split; [reflexivity|]].
  - apply elem_of_cons. right. apply elem_of_cons. right. apply elem_of_cons. left.
    reflexivity.
  - apply elem_of_cons. right. apply elem_of_cons. left. reflexivity.
Defined.

Lemma resolveSymbol_stable_witness :
  symbolAliases Sample.client = SYMBOL_ALIASES
  /\ (resolveSymbol "Gold" Sample.client = resolveSymbol "gOLD" Sample.client
      \/ (resolveSymbol "Gold" Sample.client = "Gold"%string
          /\ resolveSymbol "gOLD" Sample.client = "gOLD"%string)).
Proof.
  split; [reflexivity|].
  apply (resolveSymbol_stable Sample.client "Gold" "gOLD" eq_refl). reflexivity.
Defined.

Lemma splitMessage_parts_witness :
  joined (splitMessage Sample.twoLines 3)
  = (Sample.twoLines ++ String LF EmptyString)%string
  /\ exists more, splitMessage Sample.twoLines 2 = EmptyString :: more.
Proof.
  split; [apply (splitMessage_parts Sample.twoLines 3)|].
  destruct (splitMessage_parts Sample.twoLines 2) as (_ & _ & H).
  apply (H (String "a" (String "b" EmptyString)) [String "c" (String "d" EmptyString)]).
  - reflexivity.
  - simpl. lia.
Defined.

Lemma numbering_invariant_witness :
  numbered (alerts Sample.book)
  /\ id (addAlert "R_50" "Volatility 50 Index" "above" 7 false Sample.book).1 = 4.
Proof.
  split; [exact book_numbered|].
  destruct (numbering_invariant Sample.book book_numbered) as [H _].
  apply (H "R_50"%string "Volatility 50 Index"%string "above"%string 7%Q false).
Defined.

Lemma add_then_remove_witness :
  numbered (alerts Sample.book)
  /\ alerts (removeAlert 4 (addAlert "R_50" "Volatility 50 Index" "above" 7 false
                              Sample.book).2).2
     = alerts Sample.book.
Proof.
  split; [exact book_numbered|].
  apply (add_then_remove "R_50" "Volatility 50 Index" "above" 7 false Sample.book
           book_numbered).
Defined.

End MoreInstances.
